(** * A caching DNS forwarder: the name codec, the response builder and the
      TTL cache of [dns_server.py] and [dns_cache.py], embedded and verified. *)

From Stdlib Require Import ZArith List String Ascii Bool Lia.
From Stdlib.Strings Require Import Byte.
From stdpp Require Import gmap strings list.
Import ListNotations.

Local Open Scope Z_scope.

(** ** Python values and exceptions *)

(** The exceptions the embedded code can raise.  [RecursionError] is what the
    interpreter raises when the call stack is exhausted; [OSError] is what
    [socket.inet_aton] raises on a string it rejects. *)
Inductive exn : Type :=
  | IndexError
  | StructError
  | UnicodeDecodeError
  | UnicodeEncodeError
  | RecursionError
  | OSError.

(** A call either returns a value or raises. *)
Inductive result (A : Type) : Type :=
  | Ok (a : A)
  | Raise (e : exn).
Arguments Ok {A} a.
Arguments Raise {A} e.

Definition bind {A B : Type} (r : result A) (k : A -> result B) : result B :=
  match r with
  | Ok a => k a
  | Raise e => Raise e
  end.

Notation "x <- r ;; k" := (bind r (fun x => k))
  (at level 100, r at next level, right associativity).

(** A [bytes] object; a Python [str] is a [string] whose characters of code
    128 and above stand for the non-ASCII characters (the code only ever
    measures a [str], splits it at dots and encodes it as ASCII). *)
Abbreviation bytes := (list byte).

Definition len {A : Type} (l : list A) : Z := Z.of_nat (length l).

Definition byte_val (b : byte) : Z := Z.of_N (Byte.to_N b).

Definition byte_of_Z (z : Z) : byte :=
  match Byte.of_N (Z.to_N z) with
  | Some b => b
  | None => x00
  end.

(** [data[i]]: a negative index counts from the end. *)
Definition getitem (data : bytes) (i : Z) : result Z :=
  let j := if i <? 0 then i + len data else i in
  if (0 <=? j) && (j <? len data) then
    match nth_error data (Z.to_nat j) with
    | Some b => Ok (byte_val b)
    | None => Raise IndexError
    end
  else Raise IndexError.

(** [data[a:b]]: the bounds are clipped to the sequence, never an error. *)
Definition slice_index (n i : Z) : Z :=
  if i <? 0 then Z.max (i + n) 0 else Z.min i n.

Definition slice {A : Type} (data : list A) (a b : Z) : list A :=
  let s := slice_index (len data) a in
  let e := slice_index (len data) b in
  firstn (Z.to_nat (e - s)) (skipn (Z.to_nat s) data).

(** [struct.unpack('!H', bs)[0]], [struct.pack('!H', n)], [struct.pack('!B', n)]. *)
Definition struct_unpack_H (bs : bytes) : result Z :=
  match bs with
  | [hi; lo] => Ok (256 * byte_val hi + byte_val lo)
  | _ => Raise StructError
  end.

Definition struct_pack_H (n : Z) : result bytes :=
  if (0 <=? n) && (n <=? 65535) then Ok [byte_of_Z (n / 256); byte_of_Z (n mod 256)]
  else Raise StructError.

Definition struct_pack_B (n : Z) : result bytes :=
  if (0 <=? n) && (n <=? 255) then Ok [byte_of_Z n] else Raise StructError.

(** [bs.decode('ascii')] and [s.encode('ascii')]. *)
Definition is_ascii_byte (b : byte) : bool := byte_val b <? 128.

Definition decode_ascii (bs : bytes) : result string :=
  if forallb is_ascii_byte bs then Ok (string_of_list_byte bs)
  else Raise UnicodeDecodeError.

Definition encode_ascii (s : string) : result bytes :=
  let bs := list_byte_of_string s in
  if forallb is_ascii_byte bs then Ok bs else Raise UnicodeEncodeError.

(** [s.split(sep)] for a one-character separator: never an empty list. *)
Fixpoint str_split (sep : ascii) (s : string) : list string :=
  match s with
  | EmptyString => [EmptyString]
  | String c rest =>
      if Ascii.eqb c sep then EmptyString :: str_split sep rest
      else match str_split sep rest with
           | part :: parts => String c part :: parts
           | [] => [String c EmptyString]
           end
  end.

(** [sep.join(parts)]. *)
Definition str_join (sep : string) (parts : list string) : string :=
  String.concat sep parts.

(** Evaluating a generator of fallible items front to back. *)
Fixpoint mapM {A B : Type} (f : A -> result B) (l : list A) : result (list B) :=
  match l with
  | [] => Ok []
  | a :: rest => b <- f a ;; bs <- mapM f rest ;; Ok (b :: bs)
  end.

(** ** The message codec ([dns_server.py]) *)

(** The [while True] loop of [_parse_name].  [call] is the recursive call of
    [_parse_name] on a pointer; [fuel] bounds the iterations and [None] means
    the bound was reached ([parse_name_loop_fuel] shows it never is). *)
Fixpoint parse_name_loop (fuel : nat) (call : Z -> option (result (string * Z)))
    (data : bytes) (offset : Z) (name : list string)
  : option (result (string * Z)) :=
  match fuel with
  | O => None
  | S fuel' =>
      match getitem data offset with
      | Raise e => Some (Raise e)
      | Ok length =>
          if length =? 0 then
            Some (Ok (str_join "." name, offset + 1))
          else if Z.land length 0xc0 =? 0xc0 then
            match struct_unpack_H (slice data offset (offset + 2)) with
            | Raise e => Some (Raise e)
            | Ok word =>
                let pointer := Z.land word 0x3fff in
                match call pointer with
                | None => None
                | Some (Raise e) => Some (Raise e)
                | Some (Ok (part, _)) =>
                    Some (Ok (str_join "." (name ++ [part]), offset + 2))
                end
            end
          else
            let offset := offset + 1 in
            match decode_ascii (slice data offset (offset + length)) with
            | Raise e => Some (Raise e)
            | Ok label => parse_name_loop fuel' call data (offset + length) (name ++ [label])
            end
      end
  end.

(** Iterations one call can need: each one moves [offset] forward inside
    [-len(data), len(data))]. *)
Definition loop_bound (data : bytes) : nat := S (2 * length data).

(** [_parse_name(data, offset)] run with [limit] interpreter frames left: the
    function itself keeps no count of the pointers it follows, the only bound
    on its recursion is the interpreter's. *)
Fixpoint _parse_name (limit : nat) (data : bytes) (offset : Z)
  : option (result (string * Z)) :=
  match limit with
  | O => Some (Raise RecursionError)
  | S limit' =>
      parse_name_loop (loop_bound data) (_parse_name limit' data) data offset []
  end.

(** [_encode_name(name)]. *)
Definition encode_part (part : string) : result bytes :=
  n <- struct_pack_B (Z.of_nat (String.length part)) ;;
  label <- encode_ascii part ;;
  Ok (n ++ label).

Definition _encode_name (name : string) : result bytes :=
  parts <- mapM encode_part (str_split "." name) ;;
  Ok (concat parts ++ [x00]).

#[global] Instance byte_eq_dec : EqDecision byte := Byte.byte_eq_dec.

Section Response.

(** [socket.inet_aton] belongs to the platform's C library, not to this
    repository: it is taken as given, returning the packed address or
    raising [OSError]. *)
Variable inet_aton : string -> result bytes.

(** The body of the [for answer in answers] loop: what one answer adds to
    [section]. *)
Definition answer_record (qtype : bytes) (answer : string) : result bytes :=
  if decide (qtype = [x00; x01]) then
    packed <- inet_aton answer ;;
    Ok ([xc0; x0c; x00; x01; x00; x01; x00; x00; x00; x3c; x00; x04] ++ packed)
  else if decide (qtype = [x00; x0c]) then
    encoded <- _encode_name answer ;;
    rdlength <- struct_pack_H (len encoded) ;;
    Ok ([xc0; x0c; x00; x0c; x00; x01; x00; x00; x00; x3c] ++ rdlength ++ encoded)
  else Ok [].

Fixpoint answers_loop (qtype : bytes) (answers : list string) (section : bytes)
  : result bytes :=
  match answers with
  | [] => Ok section
  | answer :: rest =>
      record <- answer_record qtype answer ;;
      answers_loop qtype rest (section ++ record)
  end.

(** [_build_answers_section(qtype, answers)]. *)
Definition _build_answers_section (qtype : bytes) (answers : list string)
  : result bytes :=
  answers_loop qtype answers [].

(** [_build_response(tid, query, qtype, answers)]. *)
Definition _build_response (tid : bytes) (query : string) (qtype : bytes)
    (answers : list string) : result bytes :=
  ancount <- struct_pack_H (len answers) ;;
  let header := tid ++ [x81; x80; x00; x01] ++ ancount ++ [x00; x00; x00; x00] in
  name <- _encode_name query ;;
  let question := name ++ qtype ++ [x00; x01] in
  answers_section <- _build_answers_section qtype answers ;;
  Ok (header ++ question ++ answers_section).

End Response.

(** A strict dotted-quad reading of an address, one of the forms
    [socket.inet_aton] accepts; used to run the builder on examples. *)
Definition digit_val (c : ascii) : option Z :=
  let n := Z.of_N (N_of_ascii c) in
  if (48 <=? n) && (n <=? 57) then Some (n - 48) else None.

Fixpoint decimal (s : string) (acc : Z) : option Z :=
  match s with
  | EmptyString => Some acc
  | String c rest =>
      match digit_val c with
      | Some d => decimal rest (10 * acc + d)
      | None => None
      end
  end.

Definition octet (s : string) : option byte :=
  match s with
  | EmptyString => None
  | _ =>
      match decimal s 0 with
      | Some n => if n <=? 255 then Some (byte_of_Z n) else None
      | None => None
      end
  end.

Definition dotted_quad (s : string) : result bytes :=
  match str_split "." s with
  | [a; b; c; d] =>
      match octet a, octet b, octet c, octet d with
      | Some a, Some b, Some c, Some d => Ok [a; b; c; d]
      | _, _, _, _ => Raise OSError
      end
  | _ => Raise OSError
  end.

(** ** Reading a message back: the fields of the wire format *)

(** The big-endian 16-bit and 32-bit words at [offset]. *)
Definition u16_at (msg : bytes) (offset : Z) : result Z :=
  struct_unpack_H (slice msg offset (offset + 2)).

Definition u32_at (msg : bytes) (offset : Z) : result Z :=
  hi <- u16_at msg offset ;;
  lo <- u16_at msg (offset + 2) ;;
  Ok (65536 * hi + lo).

(** The fields of the 16-bit flags word of a header. *)
Definition flag_QR (flags : Z) : bool := Z.testbit flags 15.
Definition flag_opcode (flags : Z) : Z := Z.land (Z.shiftr flags 11) 15.
Definition flag_AA (flags : Z) : bool := Z.testbit flags 10.
Definition flag_TC (flags : Z) : bool := Z.testbit flags 9.
Definition flag_RD (flags : Z) : bool := Z.testbit flags 8.
Definition flag_RA (flags : Z) : bool := Z.testbit flags 7.
Definition flag_rcode (flags : Z) : Z := Z.land flags 15.

(** ** The record store ([dns_cache.py]) *)

(** A bucket maps a value to its [(expire_time, ttl)] pair, a table maps a
    key to its bucket.  Times are exact numbers (the rounding of the
    interpreter's floats is not modelled), and the order in which a [dict]
    lists its items is the map's own. *)
Abbreviation bucket := (gmap string (Z * Z)).
Abbreviation table := (gmap string (gmap string (Z * Z))).

Record DNSCache : Type := mkDNSCache {
  domain_to_ip : table;
  ip_to_domain : table;
  ns_records : table
}.

(** [DNSCache()]. *)
Definition empty_cache : DNSCache := mkDNSCache ∅ ∅ ∅.

(** [_add_to_dict(target_dict, key, value, expire_time, ttl)]. *)
Definition _add_to_dict (target_dict : table) (key value : string)
    (expire_time ttl : Z) : table :=
  let target_dict :=
    if decide (is_Some (target_dict !! key)) then target_dict
    else <[key := ∅]> target_dict in
  alter (insert value (expire_time, ttl)) key target_dict.

(** The filter [expire > current_time] of the two comprehensions. *)
Definition alive (current_time : Z) (item : string * (Z * Z)) : Prop :=
  current_time < item.2.1.

#[global] Instance alive_dec current_time item : Decision (alive current_time item).
Proof. unfold alive. apply _. Defined.

(** [_get_valid_entries(source_dict, key)], the clock reading [time.time()]
    passed as [current_time]. *)
Definition _get_valid_entries (source_dict : table) (key : string)
    (current_time : Z) : option (list string) :=
  match source_dict !! key with
  | None => None
  | Some entries =>
      let valid_entries :=
        fst <$> filter (alive current_time) (map_to_list entries) in
      match valid_entries with
      | [] => None
      | _ => Some valid_entries
      end
  end.

(** One turn of the loop of [_cleanup_dict]: rebuild the bucket of [key],
    delete the key when the bucket came out empty. *)
Definition cleanup_step (current_time : Z) (key : string) (target_dict : table)
  : table :=
  let target_dict := alter (filter (alive current_time)) key target_dict in
  if decide (target_dict !! key = Some ∅) then delete key target_dict
  else target_dict.

(** [_cleanup_dict(target_dict, current_time)]: the loop runs over the keys
    the dictionary had on entry and updates it in place. *)
Definition _cleanup_dict (target_dict : table) (current_time : Z) : table :=
  map_fold (λ key _ d, cleanup_step current_time key d) target_dict target_dict.

(** [_prepare_for_serialization(source_dict)]: a copy, tuples as lists. *)
Definition _prepare_for_serialization (source_dict : table) : table :=
  (λ v : bucket, (λ vv : Z * Z, vv) <$> v) <$> source_dict.

(** The inner loop body of [_restore_from_serialized]; [float(expire)] and
    [int(ttl)] leave the stored numbers as they are. *)
Definition restore_entry (time_passed current_time : Z) (key entry : string)
    (item : Z * Z) (restored : table) : table :=
  let '(expire, ttl) := item in
  let new_expire := expire - time_passed in
  if decide (current_time < new_expire) then
    alter (insert entry (new_expire, ttl)) key restored
  else restored.

(** [_restore_from_serialized(serialized, time_passed)], with its own clock
    reading [current_time]. *)
Definition _restore_from_serialized (serialized : table)
    (time_passed current_time : Z) : table :=
  map_fold
    (λ key entries restored,
       let restored := <[key := ∅]> restored in
       map_fold (restore_entry time_passed current_time key) restored entries)
    ∅ serialized.

(** The public operations.  Every [time.time()] is an argument. *)
Definition add_record (c : DNSCache) (now : Z) (domain ip : string) (ttl : Z)
  : DNSCache :=
  let expire_time := now + ttl in
  mkDNSCache
    (_add_to_dict (domain_to_ip c) domain ip expire_time ttl)
    (_add_to_dict (ip_to_domain c) ip domain expire_time ttl)
    (ns_records c).

Definition add_ns_record (c : DNSCache) (now : Z) (domain nameserver : string)
    (ttl : Z) : DNSCache :=
  let expire_time := now + ttl in
  mkDNSCache (domain_to_ip c) (ip_to_domain c)
    (_add_to_dict (ns_records c) domain nameserver expire_time ttl).

Definition get_ip (c : DNSCache) (now : Z) (domain : string) : option (list string) :=
  _get_valid_entries (domain_to_ip c) domain now.

Definition get_domain (c : DNSCache) (now : Z) (ip : string) : option (list string) :=
  _get_valid_entries (ip_to_domain c) ip now.

Definition get_nameservers (c : DNSCache) (now : Z) (domain : string)
  : option (list string) :=
  _get_valid_entries (ns_records c) domain now.

Definition cleanup (c : DNSCache) (current_time : Z) : DNSCache :=
  mkDNSCache
    (_cleanup_dict (domain_to_ip c) current_time)
    (_cleanup_dict (ip_to_domain c) current_time)
    (_cleanup_dict (ns_records c) current_time).

(** The object [json.load] returns: any of its four keys may be missing. *)
Record snapshot : Type := mkSnapshot {
  snap_domain_to_ip : option table;
  snap_ip_to_domain : option table;
  snap_ns_records : option table;
  snap_timestamp : option Z
}.

(** What opening and parsing the cache file can give. *)
Inductive file_contents : Type :=
  | FileNotFound
  | JSONDecodeError
  | Parsed (data : snapshot).

(** [save_to_file]: the object handed to [json.dump]. *)
Definition save_to_file (c : DNSCache) (now : Z) : snapshot :=
  mkSnapshot
    (Some (_prepare_for_serialization (domain_to_ip c)))
    (Some (_prepare_for_serialization (ip_to_domain c)))
    (Some (_prepare_for_serialization (ns_records c)))
    (Some now).

(** [load_from_file]: [load_time] is the clock reading of the method itself,
    [t1], [t2] and [t3] those of its three calls of
    [_restore_from_serialized]. *)
Definition load_from_file (c : DNSCache) (file : file_contents)
    (load_time t1 t2 t3 : Z) : DNSCache :=
  match file with
  | FileNotFound => c
  | JSONDecodeError => c
  | Parsed data =>
      let time_passed := load_time - default load_time (snap_timestamp data) in
      mkDNSCache
        (_restore_from_serialized (default ∅ (snap_domain_to_ip data)) time_passed t1)
        (_restore_from_serialized (default ∅ (snap_ip_to_domain data)) time_passed t2)
        (_restore_from_serialized (default ∅ (snap_ns_records data)) time_passed t3)
  end.

(** ** Notions the statements below use *)

(** A compression pointer at [offset] whose target is [offset] itself. *)
Definition self_pointer (data : bytes) (offset : Z) : Prop :=
  exists length word,
    getitem data offset = Ok length /\
    Z.land length 0xc0 = 0xc0 /\
    struct_unpack_H (slice data offset (offset + 2)) = Ok word /\
    Z.land word 0x3fff = offset.

(** The exceptions that can leave [_parse_name]. *)
Definition parse_exn (e : exn) : Prop :=
  e = IndexError \/ e = StructError \/ e = UnicodeDecodeError \/ e = RecursionError.

(** The labels of a dotted name, and the names all of whose labels have
    between [lo] and [hi] characters. *)
Definition labels (name : string) : list string := str_split "." name.

Definition label_lengths (lo hi : nat) (name : string) : Prop :=
  Forall (fun part => (lo <= String.length part <= hi)%nat) (labels name).

(** A [str] that [encode('ascii')] accepts. *)
Definition is_ascii (s : string) : Prop :=
  forallb is_ascii_byte (list_byte_of_string s) = true.

(** Two names beyond the limits of the wire format: one label of 64
    characters, and five labels of 60 characters each. *)
Definition label_64 : string :=
  "aaaaaaaaaaaaaaaaaaaaaaaaaaaaaaaaaaaaaaaaaaaaaaaaaaaaaaaaaaaaaaaa".

Definition name_304 : string :=
  "bbbbbbbbbbbbbbbbbbbbbbbbbbbbbbbbbbbbbbbbbbbbbbbbbbbbbbbbbbbb.bbbbbbbbbbbbbbbbbbbbbbbbbbbbbbbbbbbbbbbbbbbbbbbbbbbbbbbbbbbb.bbbbbbbbbbbbbbbbbbbbbbbbbbbbbbbbbbbbbbbbbbbbbbbbbbbbbbbbbbbb.bbbbbbbbbbbbbbbbbbbbbbbbbbbbbbbbbbbbbbbbbbbbbbbbbbbbbbbbbbbb.bbbbbbbbbbbbbbbbbbbbbbbbbbbbbbbbbbbbbbbbbbbbbbbbbbbbbbbbbbbb".

(** The query types [_get_cached_response] builds answers for: A and PTR. *)
Definition supported_qtype (qtype : bytes) : Prop :=
  qtype = [x00; x01] \/ qtype = [x00; x0c].

(** What [_restore_from_serialized] makes of one bucket: every entry with
    its expiry moved back by [time_passed], those still ahead of
    [current_time] only. *)
Definition restored_item (time_passed current_time : Z) (item : Z * Z)
  : option (Z * Z) :=
  if decide (current_time < item.1 - time_passed)
  then Some (item.1 - time_passed, item.2) else None.

Definition restored_bucket (time_passed current_time : Z) (entries : bucket)
  : bucket :=
  omap (restored_item time_passed current_time) entries.

(** What [_cleanup_dict] makes of one bucket: its live entries, or nothing
    when none is left. *)
Definition cleaned_bucket (current_time : Z) (entries : bucket) : option bucket :=
  let kept := filter (alive current_time) entries in
  if decide (kept = ∅) then None else Some kept.

(** The invariant of a table: no key is mapped to an empty bucket. *)
Definition no_empty_bucket (d : table) : Prop :=
  forall key entries, d !! key = Some entries -> entries <> ∅.

(** The entry stored for [value] under [key], if any. *)
Definition entry_of (d : table) (key value : string) : option (Z * Z) :=
  d !! key ≫= (.!! value).

(** The two shapes the result of a lookup can have. *)
Definition none_or_nonempty (r : option (list string)) : Prop :=
  r = None \/ exists value values, r = Some (value :: values).

(** A lookup that returns a list with [value] in it. *)
Definition listed (value : string) (r : option (list string)) : Prop :=
  exists l, r = Some l /\ value ∈ l.

(** [live] holds what a restore makes of the table [saved] of a snapshot:
    an entry of [live] is an entry of [saved] with its expiry moved back by
    [elapsed] and its ttl as it was, and is there exactly when the moved
    expiry is ahead of [now]. *)
Definition restores (live saved : table) (elapsed now : Z) : Prop :=
  forall key value expire' ttl',
    entry_of live key value = Some (expire', ttl') <->
    exists expire,
      entry_of saved key value = Some (expire, ttl') /\
      expire' = expire - elapsed /\
      now < expire'.

(** The cache of a server that answered one query at time 1000, the
    snapshot it saves one second later, and the cache a server started at
    time 1100 loads from that snapshot. *)
Definition cache_at_1000 : DNSCache :=
  add_record empty_cache 1000 "example.com" "93.184.216.34" 60.

Definition snapshot_at_1001 : snapshot :=
  save_to_file (cleanup cache_at_1000 1001) 1001.

Definition cache_at_1100 : DNSCache :=
  load_from_file empty_cache (Parsed snapshot_at_1001) 1100 1100 1100 1100.

(** [swept] is what a sweep at time [now] leaves of the table [d]: the
    entries of [d] whose expiry is ahead of [now], and no empty bucket. *)
Definition sweeps (swept d : table) (now : Z) : Prop :=
  no_empty_bucket swept /\
  forall key value expire ttl,
    entry_of swept key value = Some (expire, ttl) <->
    entry_of d key value = Some (expire, ttl) /\ now < expire.


(** ** The request path ([dns_server.py]) *)

(** [struct.unpack('!HHIH', bs)]: type, class, ttl and rdata length of a
    resource record. *)
Definition struct_unpack_HHIH (bs : bytes) : result (Z * Z * Z * Z) :=
  match bs with
  | [t1; t0; c1; c0; l3; l2; l1; l0; r1; r0] =>
      Ok (256 * byte_val t1 + byte_val t0,
          256 * byte_val c1 + byte_val c0,
          ((256 * byte_val l3 + byte_val l2) * 256 + byte_val l1) * 256 + byte_val l0,
          256 * byte_val r1 + byte_val r0)
  | _ => Raise StructError
  end.

(** What handling one datagram did: the cache it left, the query it handed
    to [_forward_query], the datagram it handed to [sock.sendto]. *)
Record handled : Type := mkHandled {
  h_cache : DNSCache;
  h_forwarded : option bytes;
  h_sent : option bytes
}.

Section Server.

(** [socket.inet_aton] and [socket.inet_ntoa], of the platform's library. *)
Variable inet_aton : string -> result bytes.
Variable inet_ntoa : bytes -> result string.

(** [_get_cached_response(tid, query, qtype)], the clock reading of the
    lookup passed as [now]; an exception inside is logged and turned into
    [None]. *)
Definition _get_cached_response (c : DNSCache) (now : Z) (tid : bytes)
    (query : string) (qtype : bytes) : option bytes :=
  if decide (qtype = [x00; x01]) then
    match get_ip c now query with
    | Some (ip :: ips) =>
        match _build_response inet_aton tid query qtype (ip :: ips) with
        | Ok msg => Some msg
        | Raise _ => None
        end
    | _ => None
    end
  else if decide (qtype = [x00; x0c]) then
    match get_domain c now query with
    | Some (domain :: domains) =>
        match _build_response inet_aton tid query qtype (domain :: domains) with
        | Ok msg => Some msg
        | Raise _ => None
        end
    | _ => None
    end
  else None.

(** The [for _ in range(ancount)] loop of [_cache_response], [count] turns
    to go, at record number [index]; [clock index] is the clock reading of
    the [add_record] of that record.  An exception ends the loop and is
    logged: what was cached before it stays. *)
Fixpoint cache_answers (limit : nat) (clock : nat -> Z) (response : bytes)
    (count index : nat) (offset : Z) (c : DNSCache) : DNSCache :=
  match count with
  | O => c
  | S count' =>
      match _parse_name limit response offset with
      | Some (Ok (name, offset)) =>
          match struct_unpack_HHIH (slice response offset (offset + 10)) with
          | Ok (rtype, _, ttl, rdlength) =>
              let offset := offset + 10 in
              let rdata := slice response offset (offset + rdlength) in
              let offset := offset + rdlength in
              if rtype =? 1 then
                match inet_ntoa rdata with
                | Ok ip =>
                    cache_answers limit clock response count' (S index) offset
                      (add_record c (clock index) name ip ttl)
                | Raise _ => c
                end
              else if rtype =? 12 then
                match _parse_name limit response (offset - rdlength) with
                | Some (Ok (domain, _)) =>
                    cache_answers limit clock response count' (S index) offset
                      (add_record c (clock index) name domain ttl)
                | _ => c
                end
              else cache_answers limit clock response count' (S index) offset c
          | Raise _ => c
          end
      | _ => c
      end
  end.

(** [_cache_response(response)]: the cache it leaves. *)
Definition _cache_response (limit : nat) (clock : nat -> Z) (response : bytes)
    (c : DNSCache) : DNSCache :=
  match _parse_name limit response 12 with
  | Some (Ok (_, offset)) =>
      let offset := offset + 4 in
      match struct_unpack_H (slice response 6 8) with
      | Ok ancount =>
          cache_answers limit clock response (Z.to_nat ancount) 0 offset c
      | Raise _ => c
      end
  | _ => c
  end.

(** [_handle_request(sock, data, addr)] on the cache [c].  [upstream] is
    what [_forward_query] gets back for a query, [None] on a timeout or an
    error; [now] is the clock reading of the cache lookup. *)
Definition _handle_request (limit : nat) (now : Z) (clock : nat -> Z)
    (upstream : bytes -> option bytes) (c : DNSCache) (data : bytes) : handled :=
  if len data <? 12 then mkHandled c None None
  else
    let transaction_id := slice data 0 2 in
    let flags := slice data 2 4 in
    match getitem flags 0 with
    | Ok flags0 =>
        if negb (Z.land flags0 0x80 =? 0) then mkHandled c None None
        else
          match _parse_name limit data 12 with
          | Some (Ok (query, offset)) =>
              let qtype := slice data offset (offset + 2) in
              match _get_cached_response c now transaction_id query qtype with
              | Some (b :: cached) => mkHandled c None (Some (b :: cached))
              | _ =>
                  match upstream data with
                  | Some (b :: response) =>
                      mkHandled
                        (_cache_response limit clock (b :: response) c)
                        (Some data) (Some (b :: response))
                  | _ => mkHandled c (Some data) None
                  end
              end
          | _ => mkHandled c None None
          end
    | Raise _ => mkHandled c None None
    end.

End Server.

(** [socket.inet_ntoa] on four bytes, the dotted decimal notation; used to
    run the request path on examples. *)
Definition digit_char (d : Z) : ascii := ascii_of_N (Z.to_N (48 + d)).

Definition decimal_string (n : Z) : string :=
  let units := String (digit_char (n mod 10)) EmptyString in
  let tens := String (digit_char ((n / 10) mod 10)) units in
  if n <? 10 then units
  else if n <? 100 then tens
  else String (digit_char (n / 100)) tens.

Definition quad_string (packed : bytes) : result string :=
  match packed with
  | [a; b; c; d] =>
      Ok (str_join "." (map (fun x => decimal_string (byte_val x)) [a; b; c; d]))
  | _ => Raise OSError
  end.


(** The operations that change a cache in place, and a run of them. *)
Inductive store_op : Type :=
  | Insert (now : Z) (domain ip : string) (ttl : Z)
  | InsertNs (now : Z) (domain nameserver : string) (ttl : Z)
  | Sweep (now : Z).

Definition apply_op (c : DNSCache) (op : store_op) : DNSCache :=
  match op with
  | Insert now domain ip ttl => add_record c now domain ip ttl
  | InsertNs now domain nameserver ttl => add_ns_record c now domain nameserver ttl
  | Sweep now => cleanup c now
  end.

Definition run_ops (c : DNSCache) (ops : list store_op) : DNSCache :=
  fold_left apply_op ops c.

(** No table of the cache maps a key to an empty bucket. *)
Definition cache_ok (c : DNSCache) : Prop :=
  no_empty_bucket (domain_to_ip c) /\
  no_empty_bucket (ip_to_domain c) /\
  no_empty_bucket (ns_records c).

(** Two lookups that list the same values and miss together. *)
Definition same_answer (r1 r2 : option (list string)) : Prop :=
  (r1 = None <-> r2 = None) /\ forall value, listed value r1 <-> listed value r2.


(** [live] is what is left of the table [before] when the cache is swept
    and saved at time [saved_at] and loaded [down] seconds later. *)
Definition survives_restart (live before : table) (saved_at down : Z) : Prop :=
  forall key value expire' ttl,
    entry_of live key value = Some (expire', ttl) <->
    exists expire,
      entry_of before key value = Some (expire, ttl) /\
      expire' = expire - down /\
      saved_at + 2 * down < expire.

(** The wire form of a sequence of labels: each label behind its length
    byte, then the zero byte. *)
Definition wire_name (ls : list string) : bytes :=
  concat (map (fun l => byte_of_Z (Z.of_nat (String.length l)) :: list_byte_of_string l) ls)
  ++ [x00].

(** A label with no dot in it. *)
Definition dot_free (s : string) : Prop :=
  ~ In "."%char (list_ascii_of_string s).

(** A label as a query carries it: 1 to 63 ASCII characters, no dot. *)
Definition plain_label (l : string) : Prop :=
  (1 <= String.length l <= 63)%nat /\ is_ascii l /\ dot_free l.


(** The datagram was dropped: nothing forwarded, nothing sent, the cache as
    it was. *)
Definition dropped (c : DNSCache) (h : handled) : Prop :=
  h = mkHandled c None None.

(** [answers] are exactly the unexpired values the cache holds for [query]
    at time [now], in the table a query of type [qtype] is answered from. *)
Definition live_answers (c : DNSCache) (now : Z) (query : string) (qtype : bytes)
    (answers : list string) : Prop :=
  (qtype = [x00; x01] /\ get_ip c now query = Some answers \/
   qtype = [x00; x0c] /\ get_domain c now query = Some answers) /\
  answers <> [].


(** Caching [values] for [query], one [add_record] with ttl 60 each, the
    first at record number [index]. *)
Fixpoint learn (clock : nat -> Z) (query : string) (values : list string)
    (index : nat) (c : DNSCache) : DNSCache :=
  match values with
  | [] => c
  | value :: rest =>
      learn clock query rest (S index) (add_record c (clock index) query value 60)
  end.

(** What is read back from the record built for [answer]: for an address
    the four packed bytes printed again, for a name the name itself. *)
Definition read_back (inet_aton : string -> result bytes)
    (inet_ntoa : bytes -> result string) (qtype : bytes) (answer value : string)
  : Prop :=
  (qtype = [x00; x01] /\
   exists packed, inet_aton answer = Ok packed /\ length packed = 4%nat /\
                  inet_ntoa packed = Ok value) \/
  (qtype = [x00; x0c] /\ value = answer /\ label_lengths 1 63 answer).

(** A query datagram for the addresses of [example.com], and the answer an
    upstream gives to it. *)
Definition example_query : bytes :=
  [x12; x34; x01; x00; x00; x01; x00; x00; x00; x00; x00; x00;
   x07; x65; x78; x61; x6d; x70; x6c; x65; x03; x63; x6f; x6d; x00;
   x00; x01; x00; x01].

Definition example_upstream (query : bytes) : option bytes :=
  match _build_response dotted_quad (slice query 0 2) "example.com" [x00; x01]
          ["93.184.216.34"%string; "93.184.216.35"%string] with
  | Ok msg => Some msg
  | Raise _ => None
  end.

(** * Properties *)

(** ** The primitives *)

Lemma byte_val_range (b : byte) : 0 <= byte_val b < 256.
Proof.
  unfold byte_val. pose proof (Byte.to_N_bounded b). lia.
Qed.

Lemma byte_val_of_Z (n : Z) : 0 <= n <= 255 -> byte_val (byte_of_Z n) = n.
Proof.
  intros Hn. unfold byte_val, byte_of_Z.
  destruct (Byte.of_N (Z.to_N n)) as [b|] eqn:Hb.
  - apply Byte.to_of_N in Hb. rewrite Hb. lia.
  - apply Byte.of_N_None_iff in Hb. lia.
Qed.

Lemma len_app {A : Type} (l1 l2 : list A) : len (l1 ++ l2) = len l1 + len l2.
Proof. unfold len. rewrite length_app. lia. Qed.

Lemma len_nonneg {A : Type} (l : list A) : 0 <= len l.
Proof. unfold len. lia. Qed.

Lemma getitem_Ok (data : bytes) (i v : Z) :
  getitem data i = Ok v -> - len data <= i < len data /\ 0 <= v < 256.
Proof.
  unfold getitem. intros H.
  destruct (i <? 0) eqn:Hi;
    destruct ((0 <=? _) && (_ <? len data)) eqn:Hr; try discriminate;
    destruct (nth_error data _) as [b|]; try discriminate;
    injection H as <-; pose proof (byte_val_range b); lia.
Qed.

(** Indexing just past a prefix reads the first byte of what follows. *)
Lemma getitem_app (pre post : bytes) (b : byte) :
  getitem (pre ++ b :: post) (len pre) = Ok (byte_val b).
Proof.
  unfold getitem. pose proof (len_nonneg pre) as Hp.
  destruct (len pre <? 0) eqn:Hneg; [lia|].
  rewrite len_app.
  assert ((0 <=? len pre) && (len pre <? len pre + len (b :: post)) = true)
    as -> by (apply andb_true_intro; split; [apply Z.leb_le | apply Z.ltb_lt];
              unfold len; cbn [length]; lia).
  unfold len. rewrite Nat2Z.id.
  rewrite nth_error_app2 by lia. now rewrite Nat.sub_diag.
Qed.

(** A slice that lies inside the sequence cuts out the middle part. *)
Lemma slice_app (A : Type) (pre mid post : list A) :
  slice (pre ++ mid ++ post) (len pre) (len pre + len mid) = mid.
Proof.
  unfold slice, slice_index. rewrite !len_app.
  pose proof (len_nonneg pre) as Hpre. pose proof (len_nonneg mid) as Hmid.
  pose proof (len_nonneg post) as Hpost.
  destruct (len pre <? 0) eqn:E1; [lia|].
  destruct (len pre + len mid <? 0) eqn:E2; [lia|].
  rewrite !Z.min_l by lia.
  replace (len pre + len mid - len pre) with (len mid) by lia.
  unfold len. rewrite !Nat2Z.id.
  rewrite skipn_app, skipn_all, Nat.sub_diag. cbn [skipn app].
  change (drop 0 (mid ++ post)) with (mid ++ post).
  rewrite firstn_app, firstn_all, Nat.sub_diag. cbn [firstn].
  apply app_nil_r.
Qed.

Lemma slice_prefix (A : Type) (pre post : list A) (a b : Z) :
  0 <= a -> a <= b -> b <= len pre -> slice (pre ++ post) a b = slice pre a b.
Proof.
  intros Ha Hab Hb. unfold slice, slice_index. rewrite len_app.
  pose proof (len_nonneg post) as Hpost.
  destruct (a <? 0) eqn:E1; [lia|]. destruct (b <? 0) eqn:E2; [lia|].
  rewrite !Z.min_l by lia.
  rewrite skipn_app. rewrite firstn_app.
  rewrite length_skipn.
  replace (Z.to_nat (b - a) - (length pre - Z.to_nat a))%nat with 0%nat
    by (unfold len in *; lia).
  cbn [firstn]. now rewrite app_nil_r.
Qed.

Lemma unpack_pack_H (n : Z) (bs : bytes) :
  struct_pack_H n = Ok bs -> struct_unpack_H bs = Ok n /\ length bs = 2%nat.
Proof.
  unfold struct_pack_H. destruct ((0 <=? n) && (n <=? 65535)) eqn:Hn; [|discriminate].
  intros [= <-]. split; [|reflexivity]. cbn [struct_unpack_H].
  rewrite !byte_val_of_Z.
  - f_equal. pose proof (Z.div_mod n 256). lia.
  - pose proof (Z.mod_pos_bound n 256). lia.
  - split; [apply Z.div_pos; lia|].
    assert (n / 256 < 256) by (apply Z.div_lt_upper_bound; lia). lia.
Qed.

(** A length byte below 192 is not a compression pointer. *)
Lemma not_pointer_byte (b : byte) :
  byte_val b < 192 -> (Z.land (byte_val b) 0xc0 =? 0xc0) = false.
Proof.
  destruct b; vm_compute; intros H; first [reflexivity | discriminate H].
Qed.

Lemma not_pointer (n : Z) : 0 <= n < 192 -> (Z.land n 0xc0 =? 0xc0) = false.
Proof.
  intros Hn. rewrite <- (byte_val_of_Z n) by lia.
  apply not_pointer_byte. rewrite byte_val_of_Z; lia.
Qed.

(** ** [_parse_name] terminates *)

(** The loop never reaches its iteration bound: an offset below
    [-len(data)] raises at once, and otherwise every turn moves the offset
    at least one byte closer to the end. *)
Lemma parse_name_loop_fuel (call : Z -> option (result (string * Z)))
    (data : bytes) :
  (forall p, call p <> None) ->
  forall (fuel : nat) (offset : Z) (name : list string),
    offset < - len data \/ len data - offset <= Z.of_nat fuel ->
    parse_name_loop (S fuel) call data offset name <> None.
Proof.
  intros Hcall fuel. induction fuel as [|fuel IH]; intros offset name Hfuel.
  - cbn [parse_name_loop].
    destruct (getitem data offset) as [length|e] eqn:Hget; [|discriminate].
    apply getitem_Ok in Hget. lia.
  - cbn [parse_name_loop]. cbn [parse_name_loop] in IH.
    destruct (getitem data offset) as [length|e] eqn:Hget; [|discriminate].
    apply getitem_Ok in Hget. destruct Hget as [Hoff Hlen].
    destruct (length =? 0) eqn:Hzero; [discriminate|].
    apply Z.eqb_neq in Hzero.
    destruct (Z.land length 192 =? 192).
    + destruct (struct_unpack_H _); [|discriminate].
      specialize (Hcall (Z.land a 16383)).
      destruct (call (Z.land a 16383)) as [[[part next]|e]|];
        [discriminate|discriminate|contradiction].
    + destruct (decode_ascii _); [|discriminate].
      apply IH. right. lia.
Qed.

Lemma parse_name_total (limit : nat) (data : bytes) (offset : Z) :
  _parse_name limit data offset <> None.
Proof.
  revert offset. induction limit as [|limit IH]; intros offset.
  - discriminate.
  - cbn [_parse_name]. unfold loop_bound.
    apply parse_name_loop_fuel; [exact IH|].
    destruct (Z_lt_le_dec offset (- len data)); [now left|right].
    unfold len in *. lia.
Qed.

(** A pointer whose target is its own offset sends every call straight into
    the next one, until the interpreter gives up. *)
Lemma self_pointer_exhausts (data : bytes) (offset : Z) (limit : nat) :
  self_pointer data offset ->
  _parse_name limit data offset = Some (Raise RecursionError).
Proof.
  intros (length & word & Hget & Hptr & Hword & Hself).
  induction limit as [|limit IH]; [reflexivity|].
  cbn [_parse_name]. unfold loop_bound. cbn [parse_name_loop].
  rewrite Hget.
  destruct (length =? 0) eqn:Hzero.
  { apply Z.eqb_eq in Hzero. subst length. discriminate Hptr. }
  change 192 with 0xc0. rewrite Hptr, Z.eqb_refl, Hword.
  change 16383 with 0x3fff. rewrite Hself, IH. reflexivity.
Qed.

Lemma getitem_Raise (data : bytes) (i : Z) (e : exn) :
  getitem data i = Raise e -> e = IndexError.
Proof.
  unfold getitem.
  destruct ((0 <=? _) && (_ <? len data)); [destruct (nth_error data _)|];
    congruence.
Qed.

Lemma struct_unpack_H_Raise (bs : bytes) (e : exn) :
  struct_unpack_H bs = Raise e -> e = StructError.
Proof. destruct bs as [|hi [|lo [|? ?]]]; cbn; congruence. Qed.

Lemma decode_ascii_Raise (bs : bytes) (e : exn) :
  decode_ascii bs = Raise e -> e = UnicodeDecodeError.
Proof. unfold decode_ascii. destruct (forallb _ _); congruence. Qed.

Lemma parse_name_loop_raises (call : Z -> option (result (string * Z)))
    (data : bytes) :
  (forall p e, call p = Some (Raise e) -> parse_exn e) ->
  forall (fuel : nat) (offset : Z) (name : list string) (e : exn),
    parse_name_loop fuel call data offset name = Some (Raise e) -> parse_exn e.
Proof.
  intros Hcall fuel. unfold parse_exn in *.
  induction fuel as [|fuel IH]; intros offset name e; [discriminate|].
  cbn [parse_name_loop].
  destruct (getitem data offset) as [length|e1] eqn:Hget.
  - destruct (length =? 0); [discriminate|].
    destruct (Z.land length 192 =? 192).
    + destruct (struct_unpack_H _) as [word|e2] eqn:Hword.
      * specialize (Hcall (Z.land word 16383)).
        destruct (call (Z.land word 16383)) as [[[part next]|e3]|];
          [discriminate| |discriminate].
        intros [= <-]. now apply Hcall.
      * intros [= <-]. apply struct_unpack_H_Raise in Hword. tauto.
    + destruct (decode_ascii _) as [label|e2] eqn:Hdec.
      * apply IH.
      * intros [= <-]. apply decode_ascii_Raise in Hdec. tauto.
  - intros [= <-]. apply getitem_Raise in Hget. tauto.
Qed.

Lemma parse_name_raises (limit : nat) (data : bytes) (offset : Z) (e : exn) :
  _parse_name limit data offset = Some (Raise e) -> parse_exn e.
Proof.
  revert offset e. induction limit as [|limit IH]; intros offset e.
  - cbn. intros [= <-]. unfold parse_exn. tauto.
  - cbn [_parse_name]. apply parse_name_loop_raises. exact IH.
Qed.

(** C1, as the code has it: for every message, starting offset and number of
    interpreter frames, [_parse_name] terminates, either returning a name
    and the next offset or raising one of [IndexError], [struct.error],
    [UnicodeDecodeError] and [RecursionError]; it counts neither the
    pointers it follows nor the offsets it has seen, so a pointer that
    points at itself is followed until the interpreter's frames are used up
    and is reported as [RecursionError], whatever their number. *)
Theorem parse_name_terminates (limit : nat) (data : bytes) (offset : Z) :
  ((exists name next, _parse_name limit data offset = Some (Ok (name, next))) \/
   (exists e, _parse_name limit data offset = Some (Raise e) /\ parse_exn e)) /\
  (self_pointer data offset ->
   _parse_name limit data offset = Some (Raise RecursionError)).
Proof.
  split; [|apply self_pointer_exhausts].
  destruct (_parse_name limit data offset) as [[[name next]|e]|] eqn:Hrun.
  - left. now exists name, next.
  - right. exists e. split; [reflexivity|]. now apply parse_name_raises in Hrun.
  - now apply parse_name_total in Hrun.
Qed.

Lemma parse_name_terminates_witness :
  self_pointer [xc0; x00] 0 /\
  _parse_name 1000 [xc0; x00] 0 = Some (Raise RecursionError).
Proof.
  assert (Hself : self_pointer [xc0; x00] 0).
  { exists 192, 49152. repeat split; reflexivity. }
  split; [exact Hself|].
  exact (proj2 (parse_name_terminates 1000 [xc0; x00] 0) Hself).
Defined.

(** C1 fails as stated: on the two-byte message [c0 00], a pointer to
    itself, the decoder has no bound of its own after which it gives up
    with a protocol error; it uses up whatever number of frames it is
    given. *)
Lemma parse_name_no_recursion_bound :
  _parse_name 1000 [xc0; x00] 0 = Some (Raise RecursionError) /\
  ~ (exists bound : nat, forall limit : nat, (bound <= limit)%nat ->
       _parse_name limit [xc0; x00] 0 <> Some (Raise RecursionError)).
Proof.
  assert (Hself : self_pointer [xc0; x00] 0).
  { exists 192, 49152. repeat split; reflexivity. }
  split; [now apply self_pointer_exhausts|].
  intros [bound Hbound]. apply (Hbound bound (le_n bound)).
  now apply self_pointer_exhausts.
Qed.

(** ** [_encode_name] *)

Lemma length_list_byte_of_string (s : string) :
  length (list_byte_of_string s) = String.length s.
Proof.
  unfold list_byte_of_string. rewrite length_map.
  induction s as [|c s IH]; cbn; [reflexivity|now f_equal].
Qed.

Lemma str_split_nonempty (sep : ascii) (s : string) : str_split sep s <> [].
Proof.
  destruct s as [|c s]; cbn; [discriminate|].
  destruct (Ascii.eqb c sep); [discriminate|].
  destruct (str_split sep s); discriminate.
Qed.

(** Joining what [split] gave restores the string. *)
Lemma str_join_split (sep : ascii) (s : string) :
  str_join (String sep EmptyString) (str_split sep s) = s.
Proof.
  unfold str_join. induction s as [|c s IH]; [reflexivity|].
  cbn [str_split]. pose proof (str_split_nonempty sep s) as Hne.
  destruct (Ascii.eqb c sep) eqn:Hc.
  - apply Ascii.eqb_eq in Hc. subst c.
    destruct (str_split sep s) as [|part parts]; [contradiction|].
    cbn [String.concat] in *. cbn. now rewrite IH.
  - destruct (str_split sep s) as [|part parts]; [contradiction|].
    rewrite <- IH. destruct parts as [|part' parts]; reflexivity.
Qed.

Lemma mapM_Ok {A B : Type} (f : A -> result B) (l : list A) (bs : list B) :
  mapM f l = Ok bs <-> Forall2 (fun a b => f a = Ok b) l bs.
Proof.
  revert bs. induction l as [|a l IH]; intros bs; cbn.
  - split; [intros [= <-]; constructor|intros H; now inversion H].
  - destruct (f a) as [b|e] eqn:Hfa; cbn.
    + destruct (mapM f l) as [bs'|e] eqn:Hrest; cbn.
      * split.
        -- intros [= <-]. constructor; [assumption|]. now apply IH.
        -- intros H. inversion H as [|? b' ? bs'' Hb Htl]; subst.
           apply IH in Htl. congruence.
      * split; [discriminate|]. intros H.
        inversion H as [|? b' ? bs'' Hb Htl]; subst.
        apply IH in Htl. discriminate.
    + split; [discriminate|]. intros H. inversion H; subst. congruence.
Qed.

Lemma mapM_Raise {A B : Type} (f : A -> result B) (l : list A) (e : exn) :
  mapM f l = Raise e -> exists a, In a l /\ f a = Raise e.
Proof.
  induction l as [|a l IH]; cbn; [discriminate|].
  destruct (f a) as [b|e1] eqn:Hfa; cbn.
  - destruct (mapM f l) as [bs|e2]; cbn; [discriminate|].
    intros [= <-]. destruct (IH eq_refl) as (a' & Hin & Ha').
    exists a'. split; [now right|assumption].
  - intros [= <-]. exists a. split; [now left|assumption].
Qed.

Lemma encode_part_Ok (part : string) (e : bytes) :
  encode_part part = Ok e <->
  (String.length part <= 255)%nat /\ is_ascii part /\
  e = byte_of_Z (Z.of_nat (String.length part)) :: list_byte_of_string part.
Proof.
  unfold encode_part, struct_pack_B, encode_ascii, is_ascii.
  destruct ((0 <=? _) && (_ <=? 255)) eqn:Hlen; cbn.
  - apply andb_prop in Hlen. destruct Hlen as [_ Hlen]. apply Z.leb_le in Hlen.
    destruct (forallb _ _); cbn.
    + split; [intros [= <-]|intros (_ & _ & ->)]; repeat split; lia.
    + split; [discriminate|intros (_ & ? & _); discriminate].
  - split; [discriminate|]. intros (Hle & _).
    apply andb_false_iff in Hlen. destruct Hlen as [Hlen|Hlen].
    + apply Z.leb_gt in Hlen. lia.
    + apply Z.leb_gt in Hlen. lia.
Qed.

Lemma encode_part_Raise (part : string) (e : exn) :
  encode_part part = Raise e -> e = StructError \/ e = UnicodeEncodeError.
Proof.
  unfold encode_part, struct_pack_B, encode_ascii.
  destruct ((0 <=? _) && (_ <=? 255)); cbn; [|intros [= <-]; now left].
  destruct (forallb _ _); cbn; [discriminate|intros [= <-]; now right].
Qed.

(** [_encode_name] succeeds exactly on the ASCII names whose labels fit a
    length byte. *)
Lemma encode_name_Ok (name : string) :
  (exists enc, _encode_name name = Ok enc) <->
  Forall (fun part => (String.length part <= 255)%nat /\ is_ascii part) (labels name).
Proof.
  unfold _encode_name, labels. split.
  - intros [enc Henc].
    destruct (mapM encode_part (str_split "." name)) as [parts|e] eqn:Hparts;
      [|discriminate].
    apply mapM_Ok in Hparts. clear Henc.
    induction Hparts as [|part e ps es Hpart _ IH]; constructor; [|exact IH].
    apply encode_part_Ok in Hpart. tauto.
  - intros Hall.
    assert (exists parts, mapM encode_part (str_split "." name) = Ok parts)
      as [parts ->]; [|cbn; eauto].
    induction Hall as [|part ps [Hlen Hasc] _ [es IH]].
    + now exists [].
    + exists ((byte_of_Z (Z.of_nat (String.length part)) :: list_byte_of_string part) :: es).
      apply mapM_Ok. constructor; [|now apply mapM_Ok].
      apply encode_part_Ok. tauto.
Qed.

(** C2, as the code has it: [_encode_name] succeeds exactly when every label
    of the name is ASCII and has at most 255 characters, the largest count
    one length byte holds, whatever the length of the whole name; when it
    fails, it is with [struct.error] or [UnicodeEncodeError]. *)
Theorem encode_name_limits (name : string) :
  ((exists enc, _encode_name name = Ok enc) <->
   Forall (fun part => (String.length part <= 255)%nat /\ is_ascii part)
     (labels name)) /\
  (forall e, _encode_name name = Raise e ->
     e = StructError \/ e = UnicodeEncodeError).
Proof.
  split; [apply encode_name_Ok|].
  intros e. unfold _encode_name.
  destruct (mapM encode_part (str_split "." name)) as [parts|e'] eqn:Hparts;
    cbn; [discriminate|].
  intros [= <-]. apply mapM_Raise in Hparts. destruct Hparts as (part & _ & Hpart).
  now apply encode_part_Raise in Hpart.
Qed.

Lemma encode_name_limits_witness :
  exists enc, _encode_name "example.com" = Ok enc.
Proof.
  apply (proj1 (encode_name_limits "example.com")).
  unfold labels. cbn [str_split Ascii.eqb Bool.eqb].
  repeat (constructor; [split; [cbn; lia|reflexivity]|]). constructor.
Defined.

(** C2 fails as stated: a label of 64 bytes is encoded, and so is a name
    whose encoding takes 306 bytes. *)
Lemma encode_name_no_limit :
  labels label_64 = [label_64] /\ String.length label_64 = 64%nat /\
  (exists enc, _encode_name label_64 = Ok enc /\ len enc = 66) /\
  (exists enc, _encode_name name_304 = Ok enc /\ len enc = 306).
Proof.
  split; [reflexivity|]. split; [reflexivity|].
  split; eexists; (split; [vm_compute; reflexivity|reflexivity]).
Qed.

(** ** Decoding an encoded name *)

Lemma decode_encode_ascii (s : string) :
  is_ascii s -> decode_ascii (list_byte_of_string s) = Ok s.
Proof.
  unfold is_ascii, decode_ascii. intros ->.
  now rewrite string_of_list_byte_of_string.
Qed.

(** The loop reads a run of encoded labels, each of 1 to 191 characters,
    wherever the run stands in the message, and stops after the zero byte
    that ends it. *)
Lemma parse_encoded_labels (call : Z -> option (result (string * Z)))
    (parts : list string) (encs : list bytes) :
  Forall2 (fun part e =>
             encode_part part = Ok e /\ (1 <= String.length part <= 191)%nat)
    parts encs ->
  forall (fuel : nat) (pre post : bytes) (acc : list string),
    (length parts < fuel)%nat ->
    parse_name_loop fuel call (pre ++ concat encs ++ x00 :: post) (len pre) acc
    = Some (Ok (str_join "." (acc ++ parts), len pre + len (concat encs) + 1)).
Proof.
  induction 1 as [|part e parts encs [Henc Hlen] _ IH];
    intros fuel pre post acc Hfuel.
  - destruct fuel as [|fuel]; [cbn in Hfuel; lia|].
    cbn [concat app parse_name_loop]. rewrite getitem_app.
    change (byte_val x00 =? 0) with true. cbv iota.
    rewrite app_nil_r. do 3 f_equal. unfold len. cbn [length]. lia.
  - destruct fuel as [|fuel]; [cbn in Hfuel; lia|].
    apply encode_part_Ok in Henc. destruct Henc as (_ & Hasc & ->).
    set (n := Z.of_nat (String.length part)).
    set (label := list_byte_of_string part).
    assert (Hn : byte_val (byte_of_Z n) = n) by (apply byte_val_of_Z; lia).
    assert (Hlabel : len label = n)
      by (unfold len, label; now rewrite length_list_byte_of_string).
    cbn [concat parse_name_loop]. rewrite <- !app_assoc. cbn [app].
    rewrite getitem_app, Hn.
    destruct (n =? 0) eqn:Hzero; [apply Z.eqb_eq in Hzero; lia|].
    rewrite not_pointer by lia.
    replace (pre ++ byte_of_Z n :: label ++ concat encs ++ x00 :: post)
      with ((pre ++ [byte_of_Z n]) ++ label ++ concat encs ++ x00 :: post)
      by (now rewrite <- app_assoc).
    replace (len pre + 1) with (len (pre ++ [byte_of_Z n]))
      by (rewrite len_app; reflexivity).
    assert (Hslice : forall (pre' rest : bytes),
               slice (pre' ++ label ++ rest) (len pre') (len pre' + n) = label)
      by (intros; rewrite <- Hlabel; apply slice_app).
    rewrite Hslice. unfold label at 1. rewrite decode_encode_ascii by assumption.
    replace ((pre ++ [byte_of_Z n]) ++ label ++ concat encs ++ x00 :: post)
      with (((pre ++ [byte_of_Z n]) ++ label) ++ concat encs ++ x00 :: post)
      by (now rewrite <- !app_assoc).
    replace (len (pre ++ [byte_of_Z n]) + n)
      with (len ((pre ++ [byte_of_Z n]) ++ label))
      by (rewrite (len_app _ label); lia).
    rewrite IH by (cbn in Hfuel; lia).
    rewrite <- (app_assoc acc). cbn [app].
    do 3 f_equal. unfold len. rewrite !length_app. cbn [length].
    rewrite length_app. lia.
Qed.

(** Every encoded label takes at least its length byte. *)
Lemma encoded_labels_length (parts : list string) (encs : list bytes) :
  Forall2 (fun part e => encode_part part = Ok e) parts encs ->
  (length parts <= length (concat encs))%nat.
Proof.
  induction 1 as [|part e parts encs Henc _ IH]; [reflexivity|].
  apply encode_part_Ok in Henc. destruct Henc as (_ & _ & ->).
  cbn [concat length app]. rewrite length_app. cbn [length]. lia.
Qed.

(** The round trip, for labels of up to 191 characters: the two top bits of
    a longer label's length byte would read as a pointer. *)
Lemma parse_encode_name (limit : nat) (name : string) (enc : bytes) :
  _encode_name name = Ok enc ->
  label_lengths 1 191 name ->
  _parse_name (S limit) enc 0 = Some (Ok (name, len enc)).
Proof.
  unfold _encode_name, label_lengths, labels. intros Henc Hlabels.
  destruct (mapM encode_part (str_split "." name)) as [encs|e] eqn:Hparts;
    [|discriminate].
  cbn in Henc. injection Henc as <-. apply mapM_Ok in Hparts.
  assert (Hboth : Forall2 (fun part e =>
            encode_part part = Ok e /\ (1 <= String.length part <= 191)%nat)
            (str_split "." name) encs).
  { clear -Hparts Hlabels. induction Hparts; constructor;
      inversion Hlabels; subst; auto. }
  cbn [_parse_name].
  pose proof (parse_encoded_labels (_parse_name limit (concat encs ++ [x00]))
                _ _ Hboth (loop_bound (concat encs ++ [x00])) [] [] []) as Hrun.
  cbn [app] in Hrun. change (len (@nil byte)) with 0 in Hrun. rewrite Hrun.
  - rewrite str_join_split. do 3 f_equal.
    rewrite len_app. unfold len. cbn [length]. lia.
  - unfold loop_bound. rewrite length_app.
    apply encoded_labels_length in Hparts. cbn [length]. lia.
Qed.

(** C8, as the code has it: for every dotted name that [_encode_name]
    accepts and whose labels each have between 1 and 63 characters, decoding
    the encoding from offset 0 gives back the name and the length of the
    encoding, with any number of interpreter frames but none. *)
Theorem name_codec_roundtrip (limit : nat) (name : string) (enc : bytes) :
  _encode_name name = Ok enc ->
  label_lengths 1 63 name ->
  _parse_name (S limit) enc 0 = Some (Ok (name, len enc)).
Proof.
  intros Henc Hlabels. apply parse_encode_name; [exact Henc|].
  unfold label_lengths in *. eapply Forall_impl; [exact Hlabels|].
  cbn beta. intros part Hpart. lia.
Qed.

Lemma name_codec_roundtrip_witness :
  _parse_name 1000
    [x07; x65; x78; x61; x6d; x70; x6c; x65; x03; x63; x6f; x6d; x00] 0
  = Some (Ok ("example.com"%string, 13)).
Proof.
  apply (name_codec_roundtrip 999 "example.com").
  - reflexivity.
  - unfold label_lengths. repeat constructor.
Defined.

(** C8 fails as stated on a name with an empty label: the absolute name
    [example.com.] has labels of at most 63 bytes and an encoding of 14
    bytes, and decodes to [example.com] with next offset 13; the root name,
    the empty string, is encoded in 2 bytes and decodes with next offset 1. *)
Lemma name_codec_roundtrip_empty_label :
  label_lengths 0 63 "example.com." /\
  (exists enc, _encode_name "example.com." = Ok enc /\ len enc = 14 /\
     _parse_name 1000 enc 0 = Some (Ok ("example.com"%string, 13))) /\
  (exists enc, _encode_name "" = Ok enc /\ len enc = 2 /\
     _parse_name 1000 enc 0 = Some (Ok (""%string, 1))).
Proof.
  split; [unfold label_lengths; repeat constructor|].
  split; eexists; (split; [reflexivity|split; reflexivity]).
Qed.

(** ** The layout of a built response *)

Section ResponseLayout.

Variable inet_aton : string -> result bytes.

Lemma answers_loop_Ok (qtype : bytes) (answers : list string) (section out : bytes) :
  answers_loop inet_aton qtype answers section = Ok out <->
  exists records,
    mapM (answer_record inet_aton qtype) answers = Ok records /\
    out = section ++ concat records.
Proof.
  revert section. induction answers as [|answer rest IH]; intros section; cbn.
  - split.
    + intros [= <-]. exists []. now rewrite app_nil_r.
    + intros (records & [= <-] & ->). now rewrite app_nil_r.
  - destruct (answer_record inet_aton qtype answer) as [record|e]; cbn.
    + rewrite IH. split.
      * intros (records & -> & ->). exists (record :: records).
        cbn. now rewrite app_assoc.
      * intros (records & Hrecs & ->).
        destruct (mapM _ rest) as [records'|e]; cbn in Hrecs; [|discriminate].
        injection Hrecs as <-. exists records'. cbn. now rewrite app_assoc.
    + split; [discriminate|]. now intros (records & ? & _).
Qed.

(** A message that was built is the 12-byte header, the question and the
    records of the answers, in this order. *)
Lemma build_response_layout (tid : bytes) (query : string) (qtype : bytes)
    (answers : list string) (msg : bytes) :
  _build_response inet_aton tid query qtype answers = Ok msg ->
  exists ancount name records,
    struct_pack_H (len answers) = Ok ancount /\
    _encode_name query = Ok name /\
    mapM (answer_record inet_aton qtype) answers = Ok records /\
    msg = (tid ++ [x81; x80; x00; x01] ++ ancount ++ [x00; x00; x00; x00])
          ++ (name ++ qtype ++ [x00; x01]) ++ concat records.
Proof.
  unfold _build_response, _build_answers_section.
  destruct (struct_pack_H (len answers)) as [ancount|e]; cbn; [|discriminate].
  destruct (_encode_name query) as [name|e]; cbn; [|discriminate].
  destruct (answers_loop inet_aton qtype answers []) as [section|e] eqn:Hloop;
    cbn; [|discriminate].
  intros [= <-]. apply answers_loop_Ok in Hloop.
  destruct Hloop as (records & Hrecs & ->).
  exists ancount, name, records. repeat split; assumption.
Qed.

Lemma header_length (tid ancount : bytes) :
  length tid = 2%nat -> length ancount = 2%nat ->
  len (tid ++ [x81; x80; x00; x01] ++ ancount ++ [x00; x00; x00; x00]) = 12.
Proof.
  intros Htid Hcount. unfold len. rewrite !length_app, Htid, Hcount. reflexivity.
Qed.

Lemma Ok_inj {A : Type} (a b : A) : Ok a = Ok b -> a = b.
Proof. congruence. Qed.

(** Every record the loop adds starts with the pointer [c0 0c] and carries
    60 in its ttl field, bytes 6 to 9. *)
Lemma answer_record_fields (qtype : bytes) (answer : string) (record : bytes) :
  supported_qtype qtype ->
  answer_record inet_aton qtype answer = Ok record ->
  slice record 0 2 = [xc0; x0c] /\ u32_at record 6 = Ok 60.
Proof.
  unfold answer_record, u32_at, u16_at. intros [-> | ->].
  - rewrite decide_True by reflexivity.
    destruct (inet_aton answer) as [packed|e]; cbn [bind]; [|discriminate].
    intros Hrec. apply Ok_inj in Hrec. subst record.
    rewrite !slice_prefix by (unfold len; cbn; lia). split; reflexivity.
  - rewrite decide_False by discriminate. rewrite decide_True by reflexivity.
    destruct (_encode_name answer) as [encoded|e]; cbn [bind]; [|discriminate].
    destruct (struct_pack_H (len encoded)) as [rdlength|e]; cbn [bind]; [|discriminate].
    intros Hrec. apply Ok_inj in Hrec. subst record.
    rewrite !slice_prefix by (unfold len; cbn; lia). split; reflexivity.
Qed.

Lemma answer_records_fields (qtype : bytes) (answers : list string)
    (records : list bytes) :
  supported_qtype qtype ->
  mapM (answer_record inet_aton qtype) answers = Ok records ->
  length records = length answers /\
  Forall (fun record => slice record 0 2 = [xc0; x0c] /\ u32_at record 6 = Ok 60)
    records.
Proof.
  intros Hq Hrecs. apply mapM_Ok in Hrecs.
  induction Hrecs as [|answer record answers records Hrec _ [IHlen IH]].
  - split; [reflexivity|constructor].
  - split; [cbn; now f_equal|].
    constructor; [|exact IH]. now apply answer_record_fields in Hrec.
Qed.

End ResponseLayout.

Lemma encoded_name_not_pointer (query : string) (name : bytes) :
  _encode_name query = Ok name -> name <> [xc0; x0c].
Proof.
  unfold _encode_name.
  destruct (mapM encode_part (str_split "." query)) as [parts|e]; cbn [bind];
    [|discriminate].
  intros Hname Hptr. apply Ok_inj in Hname. subst name.
  apply (f_equal (@rev byte)) in Hptr. rewrite rev_app_distr in Hptr.
  cbn in Hptr. discriminate.
Qed.

Lemma slice_header (header rest : bytes) :
  len header = 12 -> slice (header ++ rest) 0 12 = header.
Proof.
  intros Hlen. pose proof (slice_app byte [] header rest) as Hs.
  cbn [app] in Hs. change (len (@nil byte)) with 0 in Hs.
  now rewrite Hlen in Hs.
Qed.

(** C4, as the code has it: a built message starts with the transaction id
    and the fixed flags word 0x8180, a standard response (QR set, opcode 0)
    with no error (RCODE 0) in which recursion desired and recursion
    available are both set; then come a question count of 1, an answer
    count equal to the number of answers, and authority and additional
    counts of 0. *)
Theorem build_response_header (inet_aton : string -> result bytes)
    (tid : bytes) (query : string) (qtype : bytes) (answers : list string)
    (msg : bytes) :
  length tid = 2%nat ->
  _build_response inet_aton tid query qtype answers = Ok msg ->
  slice msg 0 2 = tid /\
  (exists flags, u16_at msg 2 = Ok flags /\ flags = 0x8180 /\
     flag_QR flags = true /\ flag_opcode flags = 0 /\ flag_rcode flags = 0 /\
     flag_RD flags = true /\ flag_RA flags = true) /\
  u16_at msg 4 = Ok 1 /\
  u16_at msg 6 = Ok (len answers) /\
  u16_at msg 8 = Ok 0 /\
  u16_at msg 10 = Ok 0.
Proof.
  intros Htid Hbuild. apply build_response_layout in Hbuild.
  destruct Hbuild as (ancount & name & records & Hcount & _ & _ & ->).
  apply unpack_pack_H in Hcount. destruct Hcount as [Hcount Hlen].
  destruct tid as [|t0 [|t1 [|? ?]]]; try discriminate Htid.
  destruct ancount as [|a0 [|a1 [|? ?]]]; try discriminate Hlen.
  unfold u16_at.
  rewrite !(slice_prefix byte
              ([t0; t1] ++ [x81; x80; x00; x01] ++ [a0; a1] ++ [x00; x00; x00; x00]))
    by (unfold len; cbn [length app]; lia).
  split; [reflexivity|]. split.
  { exists 0x8180. repeat split; reflexivity. }
  repeat split; try reflexivity. exact Hcount.
Qed.

Lemma build_response_header_witness :
  exists msg,
    _build_response dotted_quad [x12; x34] "example.com" [x00; x01]
      ["93.184.216.34"%string; "93.184.216.35"%string] = Ok msg /\
    u16_at msg 4 = Ok 1 /\ u16_at msg 6 = Ok 2.
Proof.
  eexists. split; [vm_compute; reflexivity|].
  pose proof (build_response_header dotted_quad [x12; x34] "example.com"
                [x00; x01] ["93.184.216.34"%string; "93.184.216.35"%string]
                _ eq_refl eq_refl) as H.
  split; [exact (proj1 (proj2 (proj2 H)))|exact (proj1 (proj2 (proj2 (proj2 H))))].
Defined.

(** C4 fails as stated: in the answer built for [example.com] the flags
    word is 0x8180, whose recursion-available bit is set. *)
Lemma build_response_sets_recursion_available :
  exists msg flags,
    _build_response dotted_quad [x12; x34] "example.com" [x00; x01]
      ["93.184.216.34"%string] = Ok msg /\
    u16_at msg 2 = Ok flags /\ flags = 0x8180 /\ flag_RA flags = true.
Proof.
  eexists. exists 0x8180. split; [vm_compute; reflexivity|].
  repeat split; reflexivity.
Qed.

(** C5, as the code has it: in a built message the question's name, at
    offset 12, is the query name encoded afresh, label by label, and never
    the two bytes of a pointer; the compression pointer [c0 0c] to offset 12
    is the name of every answer record that follows the question. *)
Theorem build_response_question_name (inet_aton : string -> result bytes)
    (tid : bytes) (query : string) (qtype : bytes) (answers : list string)
    (msg : bytes) :
  supported_qtype qtype ->
  length tid = 2%nat ->
  _build_response inet_aton tid query qtype answers = Ok msg ->
  exists name records,
    _encode_name query = Ok name /\
    name <> [xc0; x0c] /\
    slice msg 12 (12 + len name) = name /\
    msg = slice msg 0 12 ++ name ++ qtype ++ [x00; x01] ++ concat records /\
    length records = length answers /\
    Forall (fun record => slice record 0 2 = [xc0; x0c]) records.
Proof.
  intros Hq Htid Hbuild. apply build_response_layout in Hbuild.
  destruct Hbuild as (ancount & name & records & Hcount & Hname & Hrecs & ->).
  apply unpack_pack_H in Hcount. destruct Hcount as [_ Hlen].
  pose proof (header_length tid ancount Htid Hlen) as Hheader.
  set (header := tid ++ [x81; x80; x00; x01] ++ ancount ++ [x00; x00; x00; x00])
    in *.
  destruct (answer_records_fields inet_aton qtype answers records Hq Hrecs)
    as [Hn Hfields].
  exists name, records. split; [exact Hname|].
  split; [now apply encoded_name_not_pointer in Hname|].
  rewrite <- !app_assoc. split; [|split; [|split]].
  - rewrite <- Hheader. apply slice_app.
  - now rewrite slice_header.
  - exact Hn.
  - eapply Forall_impl; [exact Hfields|]. cbn beta. tauto.
Qed.

Lemma build_response_question_name_witness :
  exists msg,
    _build_response dotted_quad [x12; x34] "example.com" [x00; x01]
      ["93.184.216.34"%string] = Ok msg /\
    slice msg 12 25
    = [x07; x65; x78; x61; x6d; x70; x6c; x65; x03; x63; x6f; x6d; x00].
Proof.
  eexists. split; [vm_compute; reflexivity|].
  destruct (build_response_question_name dotted_quad [x12; x34] "example.com"
              [x00; x01] ["93.184.216.34"%string] _
              (or_introl eq_refl) eq_refl eq_refl)
    as (name & records & Hname & _ & Hslice & _).
  apply Ok_inj in Hname. subst name. exact Hslice.
Defined.

(** C5 fails as stated: in the answer built for [example.com] the question
    name at offset 12 is the 13 bytes of the encoded name, not the two bytes
    [c0 0c]; the pointer comes first at offset 29, in the answer record. *)
Lemma build_response_question_not_compressed :
  exists msg,
    _build_response dotted_quad [x12; x34] "example.com" [x00; x01]
      ["93.184.216.34"%string] = Ok msg /\
    slice msg 12 14 = [x07; x65] /\
    slice msg 12 14 <> [xc0; x0c] /\
    _encode_name "example.com" = Ok (slice msg 12 25) /\
    slice msg 29 31 = [xc0; x0c].
Proof.
  eexists. split; [vm_compute; reflexivity|].
  repeat split; try reflexivity. discriminate.
Qed.

(** C9: every answer record of a built message carries 60 in its ttl
    field, whatever the answers are; the builder is not even given the
    expiry of the cache entries it answers from. *)
Theorem build_response_answer_ttl (inet_aton : string -> result bytes)
    (tid : bytes) (query : string) (qtype : bytes) (answers : list string)
    (msg : bytes) :
  supported_qtype qtype ->
  length tid = 2%nat ->
  _build_response inet_aton tid query qtype answers = Ok msg ->
  exists header question records,
    len header = 12 /\
    (exists name, _encode_name query = Ok name /\
                  question = name ++ qtype ++ [x00; x01]) /\
    mapM (answer_record inet_aton qtype) answers = Ok records /\
    length records = length answers /\
    msg = header ++ question ++ concat records /\
    Forall (fun record => u32_at record 6 = Ok 60) records.
Proof.
  intros Hq Htid Hbuild. apply build_response_layout in Hbuild.
  destruct Hbuild as (ancount & name & records & Hcount & Hname & Hrecs & ->).
  apply unpack_pack_H in Hcount. destruct Hcount as [_ Hlen].
  destruct (answer_records_fields inet_aton qtype answers records Hq Hrecs)
    as [Hn Hfields].
  eexists _, _, records. split; [exact (header_length tid ancount Htid Hlen)|].
  split; [exists name; split; [exact Hname|reflexivity]|].
  split; [exact Hrecs|]. split; [exact Hn|]. split; [reflexivity|].
  eapply Forall_impl; [exact Hfields|]. cbn beta. tauto.
Qed.

Lemma build_response_answer_ttl_witness :
  exists records,
    mapM (answer_record dotted_quad [x00; x0c]) ["example.com"%string; "example.org"%string]
    = Ok records /\
    Forall (fun record => u32_at record 6 = Ok 60) records.
Proof.
  destruct (build_response_answer_ttl dotted_quad [x12; x34]
              "34.216.184.93.in-addr.arpa" [x00; x0c]
              ["example.com"%string; "example.org"%string] _
              (or_intror eq_refl) eq_refl eq_refl)
    as (header & question & records & _ & _ & Hrecs & _ & _ & Httl).
  exists records. split; [exact Hrecs|exact Httl].
Defined.

(** ** The record store *)

Lemma add_to_dict_lookup (d : table) (key value : string) (expire_time ttl : Z) :
  _add_to_dict d key value expire_time ttl !! key
  = Some (<[value := (expire_time, ttl)]> (default ∅ (d !! key))).
Proof.
  unfold _add_to_dict. destruct (decide (is_Some (d !! key))) as [[b Hb]|Hnone].
  - now rewrite lookup_alter_eq, Hb.
  - rewrite lookup_alter_eq, lookup_insert_eq.
    destruct (d !! key) as [b|] eqn:Hb; [destruct Hnone; eauto|reflexivity].
Qed.

Lemma add_to_dict_lookup_ne (d : table) (key value : string) (expire_time ttl : Z)
    (key' : string) :
  key <> key' ->
  _add_to_dict d key value expire_time ttl !! key' = d !! key'.
Proof.
  intros Hne. unfold _add_to_dict.
  destruct (decide (is_Some (d !! key))).
  - now rewrite lookup_alter_ne.
  - now rewrite lookup_alter_ne, lookup_insert_ne.
Qed.

(** What a lookup lists: the values of the bucket whose expiry is ahead. *)
Lemma get_valid_entries_elem (d : table) (key : string) (now : Z)
    (l : list string) (value : string) :
  _get_valid_entries d key now = Some l ->
  value ∈ l <->
  exists expire ttl, entry_of d key value = Some (expire, ttl) /\ now < expire.
Proof.
  unfold _get_valid_entries, entry_of.
  destruct (d !! key) as [entries|]; [|discriminate]. cbn.
  destruct (fst <$> filter (alive now) (map_to_list entries)) as [|v vs] eqn:Hl;
    [discriminate|].
  intros [= <-]. rewrite <- Hl. clear Hl v vs.
  rewrite list_elem_of_fmap. split.
  - intros ([v [expire ttl]] & -> & Hin).
    apply list_elem_of_filter in Hin. destruct Hin as [Halive Hin].
    apply elem_of_map_to_list in Hin. exists expire, ttl. now split.
  - intros (expire & ttl & Hentry & Hnow).
    exists (value, (expire, ttl)). split; [reflexivity|].
    apply list_elem_of_filter. split; [exact Hnow|].
    now apply elem_of_map_to_list.
Qed.

Lemma get_valid_entries_None (d : table) (key : string) (now : Z) (value : string)
    (expire ttl : Z) :
  entry_of d key value = Some (expire, ttl) -> now < expire ->
  _get_valid_entries d key now <> None.
Proof.
  unfold _get_valid_entries, entry_of. intros Hentry Hnow.
  destruct (d !! key) as [entries|]; [|discriminate]. cbn in Hentry.
  destruct (fst <$> filter (alive now) (map_to_list entries)) as [|v vs] eqn:Hl;
    [|discriminate].
  assert (Hin : value ∈ fst <$> filter (alive now) (map_to_list entries)).
  { apply list_elem_of_fmap. exists (value, (expire, ttl)). split; [reflexivity|].
    apply list_elem_of_filter. split; [exact Hnow|].
    now apply elem_of_map_to_list. }
  rewrite Hl in Hin. now apply not_elem_of_nil in Hin.
Qed.

(** C10: a lookup gives [None] or a list with something in it, in every
    state of the table, one with an empty bucket included. *)
Theorem get_valid_entries_never_empty (c : DNSCache) (d : table) (key : string)
    (now : Z) :
  none_or_nonempty (_get_valid_entries d key now) /\
  none_or_nonempty (get_ip c now key) /\
  none_or_nonempty (get_domain c now key) /\
  none_or_nonempty (get_nameservers c now key).
Proof.
  assert (H : forall t : table, none_or_nonempty (_get_valid_entries t key now)).
  { intros t. unfold _get_valid_entries, none_or_nonempty.
    destruct (t !! key) as [entries|]; [|now left].
    destruct (fst <$> filter (alive now) (map_to_list entries)) as [|v vs];
      [now left|right; eauto]. }
  unfold get_ip, get_domain, get_nameservers. repeat split; apply H.
Qed.

Lemma entry_of_add_to_dict (d : table) (key value : string) (expire_time ttl : Z) :
  entry_of (_add_to_dict d key value expire_time ttl) key value
  = Some (expire_time, ttl).
Proof.
  unfold entry_of. rewrite add_to_dict_lookup. cbn. apply lookup_insert_eq.
Qed.

Lemma listed_iff (d : table) (key value : string) (now : Z) :
  listed value (_get_valid_entries d key now) <->
  exists expire ttl, entry_of d key value = Some (expire, ttl) /\ now < expire.
Proof.
  unfold listed. split.
  - intros (l & Hl & Hin). now apply (get_valid_entries_elem _ _ _ _ _ Hl).
  - intros (expire & ttl & Hentry & Hnow).
    destruct (_get_valid_entries d key now) as [l|] eqn:Hl.
    + exists l. split; [reflexivity|].
      apply (get_valid_entries_elem _ _ _ _ _ Hl). eauto.
    + now apply get_valid_entries_None with (now := now) in Hentry.
Qed.

(** One table: a value inserted with expiry [expire_time] is listed exactly
    at the times before [expire_time]. *)
Lemma add_then_lookup (d : table) (key value : string) (expire_time ttl now : Z) :
  listed value (_get_valid_entries (_add_to_dict d key value expire_time ttl) key now)
  <-> now < expire_time.
Proof.
  rewrite listed_iff, entry_of_add_to_dict. split.
  - intros (expire & ttl' & [= <- <-] & Hnow). exact Hnow.
  - intros Hnow. eauto.
Qed.

(** C6: an entry inserted at time [t0] with ttl [ttl], by [add_record] in the
    forward and the reverse table or by [add_ns_record] in the nameserver
    table, is listed by the lookup of its key at every time in
    [[t0, t0 + ttl)] and at no time from [t0 + ttl] on. *)
Theorem ttl_monotonicity (c : DNSCache) (t0 ttl now : Z) (domain value : string) :
  let c1 := add_record c t0 domain value ttl in
  let c2 := add_ns_record c t0 domain value ttl in
  (t0 <= now < t0 + ttl ->
   listed value (get_ip c1 now domain) /\
   listed domain (get_domain c1 now value) /\
   listed value (get_nameservers c2 now domain)) /\
  (t0 + ttl <= now ->
   ~ listed value (get_ip c1 now domain) /\
   ~ listed domain (get_domain c1 now value) /\
   ~ listed value (get_nameservers c2 now domain)).
Proof.
  cbv zeta. unfold get_ip, get_domain, get_nameservers, add_record, add_ns_record.
  cbn [domain_to_ip ip_to_domain ns_records].
  rewrite !add_then_lookup. lia.
Qed.

Lemma ttl_monotonicity_witness :
  listed "93.184.216.34"
    (get_ip (add_record empty_cache 1000 "example.com" "93.184.216.34" 60)
       1059 "example.com") /\
  ~ listed "93.184.216.34"
    (get_ip (add_record empty_cache 1000 "example.com" "93.184.216.34" 60)
       1060 "example.com").
Proof.
  split.
  - apply (ttl_monotonicity empty_cache 1000 60 1059 "example.com" "93.184.216.34").
    lia.
  - apply (ttl_monotonicity empty_cache 1000 60 1060 "example.com" "93.184.216.34").
    lia.
Defined.

(** The inner loop of a restore fills the bucket it was given empty and
    touches no other key. *)
Lemma restore_entries_fold (time_passed current_time : Z) (key : string)
    (restored : table) (entries : bucket) :
  restored !! key = Some ∅ ->
  let out := map_fold (restore_entry time_passed current_time key) restored entries in
  out !! key = Some (restored_bucket time_passed current_time entries) /\
  forall key', key' <> key -> out !! key' = restored !! key'.
Proof.
  intros Hkey. cbv zeta.
  apply (map_fold_weak_ind
           (fun (out : table) (m : bucket) =>
              out !! key = Some (restored_bucket time_passed current_time m) /\
              forall key', key' <> key -> out !! key' = restored !! key')).
  - split; [|reflexivity]. unfold restored_bucket. now rewrite omap_empty.
  - intros entry [expire ttl] m out Hfresh [Hout Hother].
    unfold restore_entry, restored_bucket in *.
    destruct (decide (current_time < expire - time_passed)) as [Hkeep|Hdrop].
    + split.
      * rewrite lookup_alter_eq, Hout. cbn. f_equal. symmetry.
        apply omap_insert_Some. unfold restored_item. cbn.
        now rewrite decide_True.
      * intros key' Hne. rewrite lookup_alter_ne by congruence. now apply Hother.
    + split; [|exact Hother]. rewrite Hout. f_equal. symmetry.
      rewrite omap_insert_None
        by (unfold restored_item; cbn; now rewrite decide_False).
      apply delete_id. now rewrite lookup_omap, Hfresh.
Qed.

(** The whole of [_restore_from_serialized], bucket by bucket. *)
Lemma restore_from_serialized_fmap (serialized : table) (time_passed current_time : Z) :
  _restore_from_serialized serialized time_passed current_time
  = restored_bucket time_passed current_time <$> serialized.
Proof.
  apply map_eq. intros key. rewrite lookup_fmap. revert key.
  unfold _restore_from_serialized.
  apply (map_fold_weak_ind
           (fun (out m : table) =>
              forall key, out !! key
                          = restored_bucket time_passed current_time <$> m !! key)).
  - intros key. now rewrite !lookup_empty.
  - intros key entries m out Hfresh IH key'.
    destruct (restore_entries_fold time_passed current_time key
                (<[key := ∅]> out) entries (lookup_insert_eq _ _ _))
      as [Hkey Hother].
    destruct (decide (key' = key)) as [->|Hne].
    + now rewrite Hkey, lookup_insert_eq.
    + rewrite Hother by assumption.
      rewrite !lookup_insert_ne by congruence. apply IH.
Qed.

Lemma restore_from_serialized_restores (serialized : table) (time_passed current_time : Z) :
  restores (_restore_from_serialized serialized time_passed current_time)
    serialized time_passed current_time.
Proof.
  intros key value expire' ttl'. unfold entry_of.
  rewrite restore_from_serialized_fmap, lookup_fmap.
  destruct (serialized !! key) as [entries|]; cbn.
  - unfold restored_bucket. rewrite lookup_omap.
    destruct (entries !! value) as [[expire ttl]|]; cbn.
    + unfold restored_item. cbn.
      destruct (decide (current_time < expire - time_passed)) as [Hkeep|Hdrop].
      * split.
        -- intros [= <- <-]. eauto.
        -- intros (expire0 & Hsaved & -> & _). congruence.
      * split; [discriminate|].
        intros (expire0 & Hsaved & -> & Hnow).
        assert (expire0 = expire) by congruence. subst. contradiction.
    + split; [discriminate|]. now intros (expire0 & ? & _).
  - split; [discriminate|]. now intros (expire0 & ? & _).
Qed.

(** C7: loading a snapshot replaces the three tables by what the snapshot
    holds, whatever the cache held before; each entry comes back with its
    expiry decreased by the time between the snapshot's timestamp and the
    load and with the ttl it was saved with, and it comes back exactly when
    that new expiry is strictly ahead of the clock. *)
Theorem load_from_file_restores (c : DNSCache) (data : snapshot)
    (load_time t1 t2 t3 : Z) :
  let elapsed := load_time - default load_time (snap_timestamp data) in
  let live := load_from_file c (Parsed data) load_time t1 t2 t3 in
  restores (domain_to_ip live) (default ∅ (snap_domain_to_ip data)) elapsed t1 /\
  restores (ip_to_domain live) (default ∅ (snap_ip_to_domain data)) elapsed t2 /\
  restores (ns_records live) (default ∅ (snap_ns_records data)) elapsed t3 /\
  live = load_from_file empty_cache (Parsed data) load_time t1 t2 t3.
Proof.
  cbv zeta. cbn [load_from_file domain_to_ip ip_to_domain ns_records].
  repeat split; apply restore_from_serialized_restores.
Qed.

Lemma load_from_file_restores_witness :
  entry_of
    (domain_to_ip
       (load_from_file empty_cache (Parsed snapshot_at_1001) 1003 1003 1003 1003))
    "example.com" "93.184.216.34"
  = Some (1058, 60).
Proof.
  apply (proj1 (load_from_file_restores empty_cache snapshot_at_1001
                  1003 1003 1003 1003)).
  exists 1060. split; [vm_compute; reflexivity|]. split; [reflexivity|lia].
Defined.

(** ** Empty buckets *)

(** The whole of [_cleanup_dict], bucket by bucket. *)
Lemma cleanup_dict_omap (d : table) (current_time : Z) :
  _cleanup_dict d current_time = omap (cleaned_bucket current_time) d.
Proof.
  apply map_eq. intros key. rewrite lookup_omap.
  transitivity (match d !! key with
                | Some _ => d !! key ≫= cleaned_bucket current_time
                | None => d !! key
                end); [|now destruct (d !! key)].
  revert key. unfold _cleanup_dict.
  apply (map_fold_weak_ind
           (fun (out m : table) =>
              forall key, out !! key
                          = match m !! key with
                            | Some _ => d !! key ≫= cleaned_bucket current_time
                            | None => d !! key
                            end)).
  - intros key. now rewrite lookup_empty.
  - intros key entries m out Hfresh IH key'.
    pose proof (IH key) as Hkey. rewrite Hfresh in Hkey.
    unfold cleanup_step. destruct (decide (key' = key)) as [->|Hne].
    + rewrite lookup_insert_eq, lookup_alter_eq, Hkey.
      destruct (d !! key) as [b|]; cbn.
      * unfold cleaned_bucket.
        destruct (decide (Some (filter (alive current_time) b) = Some ∅))
          as [Hempty|Hfull].
        -- rewrite lookup_delete_eq. injection Hempty as Hempty.
           now rewrite decide_True.
        -- rewrite lookup_alter_eq, Hkey. cbn.
           rewrite decide_False by congruence. reflexivity.
      * rewrite decide_False by discriminate.
        now rewrite lookup_alter_eq, Hkey.
    + rewrite lookup_insert_ne by congruence. rewrite <- IH.
      destruct (decide (alter _ key out !! key = Some ∅)).
      * rewrite lookup_delete_ne by congruence. now rewrite lookup_alter_ne by congruence.
      * now rewrite lookup_alter_ne by congruence.
Qed.

(** An insert and a sweep keep every bucket non-empty. *)
Lemma add_to_dict_no_empty_bucket (d : table) (key value : string)
    (expire_time ttl : Z) :
  no_empty_bucket d -> no_empty_bucket (_add_to_dict d key value expire_time ttl).
Proof.
  intros Hd key' entries. destruct (decide (key = key')) as [<-|Hne].
  - rewrite add_to_dict_lookup. intros [= <-]. apply insert_non_empty.
  - rewrite add_to_dict_lookup_ne by assumption. apply Hd.
Qed.

Lemma cleanup_dict_no_empty_bucket (d : table) (current_time : Z) :
  no_empty_bucket (_cleanup_dict d current_time).
Proof.
  intros key entries. rewrite cleanup_dict_omap, lookup_omap.
  destruct (d !! key) as [b|]; cbn; [|discriminate].
  unfold cleaned_bucket. destruct (decide (filter _ b = ∅)); [discriminate|].
  congruence.
Qed.

(** C3 at work: a server caches one address at time 1000 and saves its
    cache at time 1001; a server started at time 1100 loads the file.  The
    one entry has expired and is dropped, but its key stays in the forward
    and the reverse table with an empty bucket, visible in the next
    snapshot, where a sweep of the same tables would have deleted it. *)
Theorem load_from_file_leaves_empty_bucket :
  no_empty_bucket (domain_to_ip cache_at_1000) /\
  snap_domain_to_ip snapshot_at_1001
  = Some {[ "example.com"%string := {[ "93.184.216.34"%string := (1060, 60) ]} ]} /\
  domain_to_ip cache_at_1100 = {[ "example.com"%string := ∅ ]} /\
  ip_to_domain cache_at_1100 = {[ "93.184.216.34"%string := ∅ ]} /\
  ~ no_empty_bucket (domain_to_ip cache_at_1100) /\
  snap_domain_to_ip (save_to_file cache_at_1100 1100)
  = Some {[ "example.com"%string := ∅ ]} /\
  domain_to_ip (cleanup cache_at_1100 1100) = ∅.
Proof.
  split.
  { apply add_to_dict_no_empty_bucket. intros key entries.
    unfold empty_cache. cbn [domain_to_ip]. now rewrite lookup_empty. }
  split; [vm_compute; reflexivity|].
  assert (Hfwd : domain_to_ip cache_at_1100 = {[ "example.com"%string := ∅ ]})
    by (vm_compute; reflexivity).
  split; [exact Hfwd|]. split; [vm_compute; reflexivity|].
  split.
  { intros Hinv. rewrite Hfwd in Hinv.
    apply (Hinv "example.com"%string ∅); [apply lookup_singleton_eq|reflexivity]. }
  split; vm_compute; reflexivity.
Qed.

Lemma cleanup_dict_sweeps (d : table) (current_time : Z) :
  sweeps (_cleanup_dict d current_time) d current_time.
Proof.
  split; [apply cleanup_dict_no_empty_bucket|].
  intros key value expire ttl. unfold entry_of.
  rewrite cleanup_dict_omap, lookup_omap.
  destruct (d !! key) as [b|]; cbn; [|split; [discriminate|now intros [? _]]].
  unfold cleaned_bucket.
  destruct (decide (filter (alive current_time) b = ∅)) as [Hempty|Hfull]; cbn.
  - split; [discriminate|]. intros [Hentry Hnow].
    assert (Hkept : filter (alive current_time) b !! value = Some (expire, ttl))
      by (apply map_lookup_filter_Some; now split).
    rewrite Hempty, lookup_empty in Hkept. discriminate.
  - rewrite map_lookup_filter_Some. reflexivity.
Qed.

(** Sweep completeness: after [cleanup] at time [now] each of the three
    tables holds exactly its entries whose expiry is ahead of [now], and no
    key is left with an empty bucket. *)
Theorem cleanup_complete (c : DNSCache) (now : Z) :
  sweeps (domain_to_ip (cleanup c now)) (domain_to_ip c) now /\
  sweeps (ip_to_domain (cleanup c now)) (ip_to_domain c) now /\
  sweeps (ns_records (cleanup c now)) (ns_records c) now.
Proof.
  unfold cleanup. cbn [domain_to_ip ip_to_domain ns_records].
  split; [|split]; apply cleanup_dict_sweeps.
Qed.

(** ** Resolving the pointer of an answer record *)

Lemma answer_record_shape (inet_aton : string -> result bytes) (qtype : bytes)
    (answer : string) (record : bytes) :
  supported_qtype qtype ->
  answer_record inet_aton qtype answer = Ok record ->
  exists tail, record = xc0 :: x0c :: tail.
Proof.
  unfold answer_record. intros [-> | ->].
  - rewrite decide_True by reflexivity.
    destruct (inet_aton answer) as [packed|e]; cbn [bind]; [|discriminate].
    intros [= <-]. eauto.
  - rewrite decide_False by discriminate. rewrite decide_True by reflexivity.
    destruct (_encode_name answer) as [encoded|e]; cbn [bind]; [|discriminate].
    destruct (struct_pack_H (len encoded)) as [rdlength|e]; cbn [bind];
      [|discriminate].
    intros [= <-]. eauto.
Qed.

(** The name at offset 12 of a message whose question is an encoded name
    with labels of 1 to 63 characters decodes to that name. *)
Lemma parse_question_name (limit : nat) (query : string) (name header rest : bytes) :
  _encode_name query = Ok name ->
  label_lengths 1 63 query ->
  len header = 12 ->
  exists next,
    _parse_name (S limit) (header ++ name ++ rest) 12 = Some (Ok (query, next)).
Proof.
  unfold _encode_name, label_lengths, labels. intros Henc Hlabels Hheader.
  destruct (mapM encode_part (str_split "." query)) as [encs|e] eqn:Hparts;
    [|discriminate].
  cbn [bind] in Henc. apply Ok_inj in Henc. subst name. apply mapM_Ok in Hparts.
  assert (Hboth : Forall2 (fun part e =>
            encode_part part = Ok e /\ (1 <= String.length part <= 191)%nat)
            (str_split "." query) encs).
  { clear -Hparts Hlabels. induction Hparts; constructor;
      inversion Hlabels; subst; auto. split; [assumption|lia]. }
  eexists. cbn [_parse_name]. rewrite <- Hheader, <- app_assoc.
  cbn [app]. rewrite (parse_encoded_labels _ _ _ Hboth).
  - cbn [app]. now rewrite str_join_split.
  - unfold loop_bound. rewrite !length_app.
    apply encoded_labels_length in Hparts. lia.
Qed.

(** One turn of the loop on the pointer [c0 0c]. *)
Lemma pointer_to_question (call : Z -> option (result (string * Z)))
    (data pre rest : bytes) (fuel : nat) (part : string) (next : Z) :
  data = pre ++ [xc0; x0c] ++ rest ->
  call 12 = Some (Ok (part, next)) ->
  parse_name_loop (S fuel) call data (len pre) []
  = Some (Ok (part, len pre + 2)).
Proof.
  intros -> Hcall. cbn [parse_name_loop app].
  rewrite getitem_app. change (byte_val xc0 =? 0) with false.
  change (Z.land (byte_val xc0) 192 =? 192) with true. cbv iota.
  change (pre ++ xc0 :: x0c :: rest) with (pre ++ [xc0; x0c] ++ rest).
  change (len pre + 2) with (len pre + len [xc0; x0c]).
  rewrite slice_app. cbn [struct_unpack_H].
  change (Z.land (256 * byte_val xc0 + byte_val x0c) 16383) with 12.
  now rewrite Hcall.
Qed.

(** Compression resolution: in a message built for a query whose labels have
    1 to 63 characters, decoding the name of any answer record, the pointer
    [c0 0c], gives the query name and the offset just past the pointer. *)
Theorem answer_name_resolves (inet_aton : string -> result bytes) (limit : nat)
    (tid : bytes) (query : string) (qtype : bytes) (answers : list string)
    (msg : bytes) :
  supported_qtype qtype ->
  length tid = 2%nat ->
  label_lengths 1 63 query ->
  _build_response inet_aton tid query qtype answers = Ok msg ->
  exists name records,
    _encode_name query = Ok name /\
    mapM (answer_record inet_aton qtype) answers = Ok records /\
    forall before record after,
      records = before ++ record :: after ->
      let offset := 12 + len name + 4 + len (concat before) in
      _parse_name (S (S limit)) msg offset = Some (Ok (query, offset + 2)).
Proof.
  intros Hq Htid Hlabels Hbuild. apply build_response_layout in Hbuild.
  destruct Hbuild as (ancount & name & records & Hcount & Hname & Hrecs & ->).
  apply unpack_pack_H in Hcount. destruct Hcount as [_ Hlen].
  pose proof (header_length tid ancount Htid Hlen) as Hheader.
  set (header := tid ++ [x81; x80; x00; x01] ++ ancount ++ [x00; x00; x00; x00])
    in *.
  exists name, records. split; [exact Hname|]. split; [exact Hrecs|].
  intros before record after Hsplit. cbv zeta.
  assert (Hshape : exists tail, record = xc0 :: x0c :: tail).
  { apply mapM_Ok in Hrecs. rewrite Hsplit in Hrecs.
    apply Forall2_app_inv_r in Hrecs.
    destruct Hrecs as (l1 & l2 & _ & Hl2 & _).
    inversion Hl2 as [|answer ? ? ? Hrec _]; subst.
    now apply answer_record_shape in Hrec. }
  destruct Hshape as [tail ->].
  assert (Hqtype : len qtype = 2) by (destruct Hq as [-> | ->]; reflexivity).
  set (pre := header ++ (name ++ qtype ++ [x00; x01]) ++ concat before).
  assert (Hmsg : header ++ (name ++ qtype ++ [x00; x01]) ++ concat records
                 = pre ++ [xc0; x0c] ++ tail ++ concat after).
  { unfold pre. rewrite Hsplit, concat_app. cbn [concat app].
    now rewrite <- !app_assoc. }
  assert (Hpre : 12 + len name + 4 + len (concat before) = len pre).
  { unfold pre. rewrite !len_app, Hheader, Hqtype. unfold len. cbn [length]. lia. }
  destruct (parse_question_name limit query name header
              (qtype ++ [x00; x01] ++ concat records) Hname Hlabels Hheader)
    as [next Hquestion].
  replace (header ++ name ++ qtype ++ [x00; x01] ++ concat records)
    with (header ++ (name ++ qtype ++ [x00; x01]) ++ concat records)
    in Hquestion by (now rewrite <- !app_assoc).
  rewrite Hpre.
  change (_parse_name (S (S limit)) ?m ?o)
    with (parse_name_loop (loop_bound m) (_parse_name (S limit) m) m o []).
  unfold loop_bound.
  rewrite (pointer_to_question _ _ _ _ _ _ _ Hmsg Hquestion). reflexivity.
Qed.

Lemma answer_name_resolves_witness :
  exists msg,
    _build_response dotted_quad [x12; x34] "example.com" [x00; x01]
      ["93.184.216.34"%string] = Ok msg /\
    _parse_name 1000 msg 29 = Some (Ok ("example.com"%string, 31)).
Proof.
  eexists. split; [vm_compute; reflexivity|].
  destruct (answer_name_resolves dotted_quad 998 [x12; x34] "example.com"
              [x00; x01] ["93.184.216.34"%string] _
              (or_introl eq_refl) eq_refl
              ltac:(unfold label_lengths; repeat constructor) eq_refl)
    as (name & records & Hname & Hrecs & Hptr).
  apply Ok_inj in Hname. apply Ok_inj in Hrecs. subst name records.
  exact (Hptr [] _ [] eq_refl).
Defined.

(** * More of the code *)

(** ** Inserts, sweeps and lookups together *)

Lemma entry_of_add_to_dict_any (d : table) (key value : string)
    (expire_time ttl : Z) (k v : string) :
  entry_of (_add_to_dict d key value expire_time ttl) k v
  = if decide (k = key /\ v = value) then Some (expire_time, ttl)
    else entry_of d k v.
Proof.
  unfold entry_of. destruct (decide (k = key)) as [->|Hk].
  - rewrite add_to_dict_lookup. cbn. destruct (decide (v = value)) as [->|Hv].
    + rewrite lookup_insert_eq. now rewrite decide_True.
    + rewrite lookup_insert_ne by congruence.
      rewrite decide_False by tauto.
      destruct (d !! key); [reflexivity|apply lookup_empty].
  - rewrite add_to_dict_lookup_ne by congruence. now rewrite decide_False by tauto.
Qed.

(** [add_record] stores the pair in both directions with one expiry,
    replaces what was stored for the same pair and leaves every other entry
    and the nameserver table alone; [add_ns_record] changes the nameserver
    table only, in the same way. *)
Theorem add_record_entries (c : DNSCache) (now ttl : Z) (domain ip k v : string) :
  entry_of (domain_to_ip (add_record c now domain ip ttl)) k v
  = (if decide (k = domain /\ v = ip) then Some (now + ttl, ttl)
     else entry_of (domain_to_ip c) k v) /\
  entry_of (ip_to_domain (add_record c now domain ip ttl)) k v
  = (if decide (k = ip /\ v = domain) then Some (now + ttl, ttl)
     else entry_of (ip_to_domain c) k v) /\
  ns_records (add_record c now domain ip ttl) = ns_records c /\
  entry_of (ns_records (add_ns_record c now domain ip ttl)) k v
  = (if decide (k = domain /\ v = ip) then Some (now + ttl, ttl)
     else entry_of (ns_records c) k v) /\
  domain_to_ip (add_ns_record c now domain ip ttl) = domain_to_ip c /\
  ip_to_domain (add_ns_record c now domain ip ttl) = ip_to_domain c.
Proof.
  unfold add_record, add_ns_record. cbn [domain_to_ip ip_to_domain ns_records].
  rewrite !entry_of_add_to_dict_any. repeat split.
Qed.

Lemma none_iff_nothing_listed (r : option (list string)) :
  none_or_nonempty r -> r = None <-> forall value, ~ listed value r.
Proof.
  intros [-> | (value & values & ->)]; split.
  - intros _ value (l & Hl & _). discriminate.
  - reflexivity.
  - discriminate.
  - intros Hnone. destruct (Hnone value). exists (value :: values).
    split; [reflexivity|]. apply list_elem_of_here.
Qed.

Lemma get_valid_entries_shape (d : table) (key : string) (now : Z) :
  none_or_nonempty (_get_valid_entries d key now).
Proof.
  unfold _get_valid_entries, none_or_nonempty.
  destruct (d !! key) as [entries|]; [|now left].
  destruct (fst <$> filter (alive now) (map_to_list entries)) as [|v vs];
    [now left|right; eauto].
Qed.

Lemma same_answer_listed (d1 d2 : table) (key : string) (now : Z) :
  (forall value, listed value (_get_valid_entries d1 key now)
                 <-> listed value (_get_valid_entries d2 key now)) ->
  same_answer (_get_valid_entries d1 key now) (_get_valid_entries d2 key now).
Proof.
  intros Hsame. split; [|exact Hsame].
  rewrite !none_iff_nothing_listed by apply get_valid_entries_shape.
  split; intros Hnone value Hl; apply (Hnone value), Hsame, Hl.
Qed.

Lemma cleanup_dict_same_answer (d : table) (swept_at now : Z) (key : string) :
  swept_at <= now ->
  same_answer (_get_valid_entries (_cleanup_dict d swept_at) key now)
    (_get_valid_entries d key now).
Proof.
  intros Hle. apply same_answer_listed. intros value. rewrite !listed_iff.
  destruct (cleanup_dict_sweeps d swept_at) as [_ Hswept].
  split; intros (expire & ttl & Hentry & Hnow); exists expire, ttl.
  - apply Hswept in Hentry. tauto.
  - split; [|exact Hnow]. apply Hswept. split; [exact Hentry|lia].
Qed.

(** A sweep does not change what a lookup at the same or a later time
    answers: the same values are listed, and a miss stays a miss. *)
Theorem cleanup_keeps_answers (c : DNSCache) (swept_at now : Z) (key : string) :
  swept_at <= now ->
  same_answer (get_ip (cleanup c swept_at) now key) (get_ip c now key) /\
  same_answer (get_domain (cleanup c swept_at) now key) (get_domain c now key) /\
  same_answer (get_nameservers (cleanup c swept_at) now key)
    (get_nameservers c now key).
Proof.
  intros Hle. unfold get_ip, get_domain, get_nameservers, cleanup.
  cbn [domain_to_ip ip_to_domain ns_records].
  split; [|split]; now apply cleanup_dict_same_answer.
Qed.

Lemma cleanup_keeps_answers_witness :
  same_answer (get_ip (cleanup cache_at_1000 1001) 1059 "example.com")
    (get_ip cache_at_1000 1059 "example.com").
Proof.
  apply (cleanup_keeps_answers cache_at_1000 1001 1059 "example.com"). lia.
Defined.

Lemma filter_alive_twice (b : bucket) (t1 t2 : Z) :
  filter (alive t2) (filter (alive t1) b) = filter (alive (Z.max t1 t2)) b.
Proof.
  apply map_eq. intros value. apply option_eq. intros [expire ttl].
  rewrite !map_lookup_filter_Some. unfold alive. cbn. intuition lia.
Qed.

Lemma cleanup_dict_twice (d : table) (t1 t2 : Z) :
  _cleanup_dict (_cleanup_dict d t1) t2 = _cleanup_dict d (Z.max t1 t2).
Proof.
  rewrite !cleanup_dict_omap. apply map_eq. intros key.
  rewrite !lookup_omap. destruct (d !! key) as [b|]; cbn; [|reflexivity].
  unfold cleaned_bucket at 2.
  destruct (decide (filter (alive t1) b = ∅)) as [Hempty|Hfull]; cbn.
  - unfold cleaned_bucket. rewrite <- filter_alive_twice, Hempty.
    rewrite map_filter_empty. now rewrite decide_True.
  - unfold cleaned_bucket. now rewrite filter_alive_twice.
Qed.

(** Two sweeps in a row leave what one sweep at the later of the two times
    leaves; a second sweep at the same time changes nothing. *)
Theorem cleanup_twice (c : DNSCache) (t1 t2 : Z) :
  cleanup (cleanup c t1) t2 = cleanup c (Z.max t1 t2) /\
  cleanup (cleanup c t1) t1 = cleanup c t1.
Proof.
  unfold cleanup. cbn [domain_to_ip ip_to_domain ns_records].
  rewrite !cleanup_dict_twice, Z.max_id. split; reflexivity.
Qed.

(** ** Reachable states *)

Lemma add_record_ok (c : DNSCache) (now : Z) (domain ip : string) (ttl : Z) :
  cache_ok c -> cache_ok (add_record c now domain ip ttl).
Proof.
  intros (Hfwd & Hrev & Hns). unfold cache_ok, add_record.
  cbn [domain_to_ip ip_to_domain ns_records].
  split; [|split]; [now apply add_to_dict_no_empty_bucket ..|exact Hns].
Qed.

Lemma cleanup_ok (c : DNSCache) (now : Z) : cache_ok (cleanup c now).
Proof.
  unfold cache_ok, cleanup. cbn [domain_to_ip ip_to_domain ns_records].
  split; [|split]; apply cleanup_dict_no_empty_bucket.
Qed.

Lemma apply_op_ok (c : DNSCache) (op : store_op) :
  cache_ok c -> cache_ok (apply_op c op).
Proof.
  intros Hc. destruct op as [now domain ip ttl|now domain ns ttl|now]; cbn.
  - now apply add_record_ok.
  - destruct Hc as (Hfwd & Hrev & Hns). unfold cache_ok, add_ns_record.
    cbn [domain_to_ip ip_to_domain ns_records].
    split; [exact Hfwd|]. split; [exact Hrev|].
    now apply add_to_dict_no_empty_bucket.
  - apply cleanup_ok.
Qed.

Lemma run_ops_ok (ops : list store_op) (c : DNSCache) :
  cache_ok c -> cache_ok (run_ops c ops).
Proof.
  unfold run_ops. revert c. induction ops as [|op ops IH]; intros c Hc;
    [exact Hc|].
  cbn [fold_left]. apply IH. now apply apply_op_ok.
Qed.

(** Inserts and sweeps never leave a key with an empty bucket: no state
    reached from the empty cache has one, and neither has a state reached
    from any cache whatever, one just loaded from a file included, once it
    has been swept. *)
Theorem no_empty_bucket_reachable (ops : list store_op) (c : DNSCache) (now : Z) :
  cache_ok (run_ops empty_cache ops) /\
  cache_ok (run_ops (cleanup c now) ops).
Proof.
  split; apply run_ops_ok.
  - unfold cache_ok, empty_cache. cbn [domain_to_ip ip_to_domain ns_records].
    repeat split; intros key entries; now rewrite lookup_empty.
  - apply cleanup_ok.
Qed.

(** ** Saving and loading *)

Lemma prepare_for_serialization_id (d : table) :
  _prepare_for_serialization d = d.
Proof.
  unfold _prepare_for_serialization.
  rewrite (map_fmap_ext _ id); [apply map_fmap_id|].
  intros key b _. apply (map_fmap_id b).
Qed.

Lemma restore_swept (d : table) (now : Z) :
  _restore_from_serialized (_cleanup_dict d now) 0 now = _cleanup_dict d now.
Proof.
  rewrite restore_from_serialized_fmap, cleanup_dict_omap.
  apply map_eq. intros key. rewrite lookup_fmap, lookup_omap.
  destruct (d !! key) as [b|]; cbn; [|reflexivity].
  unfold cleaned_bucket.
  destruct (decide (filter (alive now) b = ∅)); cbn; [reflexivity|].
  f_equal. apply map_eq. intros value. unfold restored_bucket.
  rewrite lookup_omap.
  destruct (filter (alive now) b !! value) as [[expire ttl]|] eqn:Hv; cbn;
    [|reflexivity].
  apply map_lookup_filter_Some in Hv. destruct Hv as [_ Halive].
  unfold alive in Halive. cbn in Halive. unfold restored_item. cbn.
  rewrite decide_True by lia. now rewrite Z.sub_0_r.
Qed.

(** What [_save_cache] writes, loaded again at the very time it was written,
    is the swept cache itself, whatever the loading cache held before. *)
Theorem save_then_load (c c' : DNSCache) (now : Z) :
  load_from_file c' (Parsed (save_to_file (cleanup c now) now)) now now now now
  = cleanup c now.
Proof.
  unfold load_from_file, save_to_file, cleanup.
  cbn [snap_timestamp snap_domain_to_ip snap_ip_to_domain snap_ns_records
       domain_to_ip ip_to_domain ns_records default]. unfold id.
  rewrite !prepare_for_serialization_id, Z.sub_diag, !restore_swept.
  reflexivity.
Qed.

Lemma swept_saved_restored (d : table) (saved_at down : Z) :
  0 <= down ->
  survives_restart
    (_restore_from_serialized (_prepare_for_serialization (_cleanup_dict d saved_at))
       (saved_at + down - saved_at) (saved_at + down))
    d saved_at down.
Proof.
  intros Hdown key value expire' ttl. rewrite prepare_for_serialization_id.
  rewrite (restore_from_serialized_restores _ _ _ key value expire' ttl).
  destruct (cleanup_dict_sweeps d saved_at) as [_ Hswept].
  split; intros (expire & Hentry & -> & Hnow); exists expire.
  - apply Hswept in Hentry. destruct Hentry as [Hentry _].
    split; [exact Hentry|]. lia.
  - split; [apply Hswept; split; [exact Hentry|lia]|]. lia.
Qed.

(** A restart costs every entry twice the time the server was down: of a
    cache swept and saved at [saved_at] and loaded [down] seconds later, an
    entry is kept exactly when its expiry was more than [2 * down] ahead of
    [saved_at], and its expiry is moved back by [down] although the clock
    has moved forward by as much. *)
Theorem restart_costs_twice (c c' : DNSCache) (saved_at down : Z) :
  0 <= down ->
  let at_load := saved_at + down in
  let live :=
    load_from_file c' (Parsed (save_to_file (cleanup c saved_at) saved_at))
      at_load at_load at_load at_load in
  survives_restart (domain_to_ip live) (domain_to_ip c) saved_at down /\
  survives_restart (ip_to_domain live) (ip_to_domain c) saved_at down /\
  survives_restart (ns_records live) (ns_records c) saved_at down.
Proof.
  intros Hdown. cbv zeta. unfold load_from_file, save_to_file, cleanup.
  cbn [snap_timestamp snap_domain_to_ip snap_ip_to_domain snap_ns_records
       domain_to_ip ip_to_domain ns_records default]. unfold id.
  split; [|split]; now apply swept_saved_restored.
Qed.

(** An entry with 5 seconds to live when the cache is saved is gone when the
    cache is loaded 3 seconds later. *)
Lemma restart_costs_twice_witness :
  entry_of
    (domain_to_ip
       (load_from_file empty_cache
          (Parsed (save_to_file
                     (cleanup (add_record empty_cache 995 "example.com" "93.184.216.34" 10)
                        1000) 1000))
          1003 1003 1003 1003))
    "example.com" "93.184.216.34" = None.
Proof.
  destruct (entry_of _ "example.com" "93.184.216.34") as [[expire' ttl]|] eqn:Hentry;
    [|reflexivity].
  apply (proj1 (restart_costs_twice
                  (add_record empty_cache 995 "example.com" "93.184.216.34" 10)
                  empty_cache 1000 3 ltac:(lia))) in Hentry.
  destruct Hentry as (expire & Hbefore & _ & Hlate).
  vm_compute in Hbefore. injection Hbefore as <- _. lia.
Defined.

(** ** More on the name codec *)

Lemma struct_unpack_H_length (bs : bytes) (word : Z) :
  struct_unpack_H bs = Ok word -> length bs = 2%nat.
Proof. destruct bs as [|hi [|lo [|? ?]]]; cbn; congruence. Qed.

Lemma slice_two_inside (data : bytes) (a : Z) :
  0 <= a -> length (slice data a (a + 2)) = 2%nat -> a + 2 <= len data.
Proof.
  unfold slice, slice_index. intros Ha.
  destruct (a <? 0) eqn:E1; [lia|]. destruct (a + 2 <? 0) eqn:E2; [lia|].
  rewrite length_firstn, length_skipn. unfold len. lia.
Qed.

Lemma parse_name_loop_bounds (call : Z -> option (result (string * Z)))
    (data : bytes) (fuel : nat) :
  forall (offset : Z) (acc : list string) (name : string) (next : Z),
    parse_name_loop fuel call data offset acc = Some (Ok (name, next)) ->
    offset < next <= len data.
Proof.
  induction fuel as [|fuel IH]; intros offset acc name next; [discriminate|].
  cbn [parse_name_loop].
  destruct (getitem data offset) as [length|e] eqn:Hget; [|discriminate].
  apply getitem_Ok in Hget. destruct Hget as [Hoff Hlen].
  destruct (length =? 0); [intros [= _ <-]; lia|].
  destruct (Z.land length 192 =? 192).
  - destruct (struct_unpack_H _) as [word|e] eqn:Hword; [|discriminate].
    destruct (call (Z.land word 16383)) as [[[part ?]|?]|]; try discriminate.
    intros [= _ <-]. apply struct_unpack_H_length in Hword.
    destruct (Z_lt_le_dec offset 0); [lia|].
    apply slice_two_inside in Hword; lia.
  - destruct (decode_ascii _); [|discriminate].
    intros Hrun. apply IH in Hrun. lia.
Qed.

(** When [_parse_name] returns, the offset it returns lies behind the one it
    started from and not behind the end of the message. *)
Theorem parse_name_bounds (limit : nat) (data : bytes) (offset : Z)
    (name : string) (next : Z) :
  _parse_name limit data offset = Some (Ok (name, next)) ->
  offset < next <= len data.
Proof.
  destruct limit as [|limit]; [discriminate|].
  cbn [_parse_name]. apply parse_name_loop_bounds.
Qed.

Lemma parse_name_bounds_witness : 7 < 9 <= 9.
Proof.
  exact (parse_name_bounds 5 [x03; x77; x77; x77; x01; x61; x00; xc0; x04] 7
           "a" 9 eq_refl).
Defined.

(** A starting offset outside the message, on either side, raises
    [IndexError]; so does every offset on the empty message. *)
Theorem parse_name_out_of_range (limit : nat) (data : bytes) (offset : Z) :
  offset < - len data \/ len data <= offset ->
  _parse_name (S limit) data offset = Some (Raise IndexError).
Proof.
  intros Hout. cbn [_parse_name]. unfold loop_bound. cbn [parse_name_loop].
  destruct (getitem data offset) as [length|e] eqn:Hget.
  - apply getitem_Ok in Hget. lia.
  - apply getitem_Raise in Hget. now subst e.
Qed.

Lemma parse_name_out_of_range_witness :
  _parse_name 1000 [] 12 = Some (Raise IndexError).
Proof.
  apply (parse_name_out_of_range 999 [] 12). right. unfold len. cbn [length]. lia.
Defined.

Lemma str_split_lengths (sep : ascii) (s : string) :
  list_sum (map (fun part => S (String.length part)) (str_split sep s))
  = S (String.length s).
Proof.
  unfold list_sum. induction s as [|c s IH]; [reflexivity|]. cbn [str_split].
  destruct (Ascii.eqb c sep).
  - cbn [map fold_right String.length]. lia.
  - pose proof (str_split_nonempty sep s) as Hne.
    destruct (str_split sep s) as [|part parts]; [contradiction|].
    cbn [map fold_right String.length] in *. lia.
Qed.

Lemma encoded_parts_length (parts : list string) (encs : list bytes) :
  Forall2 (fun part e => encode_part part = Ok e) parts encs ->
  length (concat encs) = list_sum (map (fun part => S (String.length part)) parts).
Proof.
  induction 1 as [|part e parts encs Henc _ IH]; [reflexivity|].
  apply encode_part_Ok in Henc. destruct Henc as (_ & _ & ->).
  unfold list_sum in *. cbn [concat map fold_right app length].
  rewrite length_app, IH. now rewrite length_list_byte_of_string.
Qed.

(** An encoded name is two bytes longer than the dotted name and ends with
    the zero byte. *)
Theorem encode_name_length (name : string) (enc : bytes) :
  _encode_name name = Ok enc ->
  len enc = Z.of_nat (String.length name) + 2 /\
  exists body, enc = body ++ [x00].
Proof.
  unfold _encode_name.
  destruct (mapM encode_part (str_split "." name)) as [encs|e] eqn:Hparts;
    cbn [bind]; [|discriminate].
  intros Henc. apply Ok_inj in Henc. subst enc. split; [|eauto].
  apply mapM_Ok in Hparts. apply encoded_parts_length in Hparts.
  unfold len. rewrite length_app, Hparts, str_split_lengths. cbn [length]. lia.
Qed.

Lemma encode_name_length_witness :
  len [x07; x65; x78; x61; x6d; x70; x6c; x65; x03; x63; x6f; x6d; x00] = 11 + 2.
Proof.
  exact (proj1 (encode_name_length "example.com" _ eq_refl)).
Defined.

Lemma str_split_dot_free (s : string) :
  dot_free s -> str_split "." s = [s].
Proof.
  unfold dot_free. induction s as [|c s IH]; [reflexivity|].
  cbn [list_ascii_of_string In str_split]. intros Hfree.
  destruct (Ascii.eqb c ".") eqn:Hc.
  - apply Ascii.eqb_eq in Hc. tauto.
  - rewrite IH by tauto. reflexivity.
Qed.

Lemma str_split_app (s1 s2 : string) :
  dot_free s1 ->
  str_split "." (s1 +:+ String "." s2) = s1 :: str_split "." s2.
Proof.
  unfold dot_free. induction s1 as [|c s1 IH].
  - intros _. reflexivity.
  - cbn [list_ascii_of_string In]. intros Hfree.
    change (String c s1 +:+ String "." s2)
      with (String c (s1 +:+ String "." s2)).
    cbn [str_split].
    destruct (Ascii.eqb c ".") eqn:Hc.
    + apply Ascii.eqb_eq in Hc. tauto.
    + rewrite IH by tauto. reflexivity.
Qed.

(** Splitting what [join] made of dot-free labels gives the labels back. *)
Lemma str_split_join (ls : list string) :
  ls <> [] -> Forall dot_free ls -> str_split "." (str_join "." ls) = ls.
Proof.
  unfold str_join. induction ls as [|l ls IH]; [contradiction|].
  intros _ Hfree. inversion Hfree as [|? ? Hl Hls]; subst.
  destruct ls as [|l' ls]; [now apply str_split_dot_free|].
  change (String.concat "." (l :: l' :: ls))
    with (l +:+ String "." (String.concat "." (l' :: ls))).
  rewrite str_split_app by assumption. f_equal. now apply IH.
Qed.

(** What is decoded from the wire form of a name with plain labels is
    encoded to the very same bytes: the question a query carries is the
    question the answer built for it repeats. *)
Theorem decode_then_encode (limit : nat) (ls : list string) :
  ls <> [] ->
  Forall plain_label ls ->
  _parse_name (S limit) (wire_name ls) 0
  = Some (Ok (str_join "." ls, len (wire_name ls))) /\
  _encode_name (str_join "." ls) = Ok (wire_name ls).
Proof.
  intros Hne Hplain.
  assert (Hsplit : str_split "." (str_join "." ls) = ls).
  { apply str_split_join; [exact Hne|].
    eapply Forall_impl; [exact Hplain|]. unfold plain_label. tauto. }
  assert (Henc : _encode_name (str_join "." ls) = Ok (wire_name ls)).
  { unfold _encode_name, wire_name. rewrite Hsplit.
    assert (mapM encode_part ls
            = Ok (map (fun l => byte_of_Z (Z.of_nat (String.length l))
                                  :: list_byte_of_string l) ls)) as ->;
      [|reflexivity].
    apply mapM_Ok. clear Hne Hsplit.
    induction Hplain as [|l ls (Hlen & Hasc & _) _ IH]; constructor; [|exact IH].
    apply encode_part_Ok. repeat split; [lia|exact Hasc]. }
  split; [|exact Henc].
  apply parse_encode_name; [exact Henc|].
  unfold label_lengths, labels. rewrite Hsplit.
  eapply Forall_impl; [exact Hplain|]. unfold plain_label. cbn beta. lia.
Qed.

Lemma decode_then_encode_witness :
  _encode_name "example.com"
  = Ok [x07; x65; x78; x61; x6d; x70; x6c; x65; x03; x63; x6f; x6d; x00].
Proof.
  refine (proj2 (decode_then_encode 999 ["example"%string; "com"%string] _ _)).
  - discriminate.
  - repeat constructor; try (cbn; lia); intros Hin; cbn in Hin;
      repeat (destruct Hin as [Hin|Hin]; [discriminate Hin|]); exact Hin.
Defined.

(** ** The request path *)

Section RequestPath.

Variable inet_aton : string -> result bytes.
Variable inet_ntoa : bytes -> result string.

(** Whatever [add_record] keeps, the loop of [_cache_response] keeps: the
    loop changes the cache by [add_record] and by nothing else. *)
Lemma cache_answers_keeps (P : DNSCache -> Prop) :
  (forall c now domain ip ttl, P c -> P (add_record c now domain ip ttl)) ->
  forall (limit : nat) (clock : nat -> Z) (response : bytes) (count index : nat)
         (offset : Z) (c : DNSCache),
    P c -> P (cache_answers inet_ntoa limit clock response count index offset c).
Proof.
  intros Hadd limit clock response count.
  induction count as [|count IH]; intros index offset c Hc; [exact Hc|].
  cbn [cache_answers].
  destruct (_parse_name limit response offset) as [[[name offset']|e]|];
    try exact Hc.
  destruct (struct_unpack_HHIH _) as [[[[rtype class] ttl] rdlength]|e];
    [|exact Hc].
  destruct (rtype =? 1).
  - destruct (inet_ntoa _) as [ip|e]; [|exact Hc]. apply IH, Hadd, Hc.
  - destruct (rtype =? 12); [|apply IH, Hc].
    destruct (_parse_name limit response _) as [[[domain ?]|e]|]; try exact Hc.
    apply IH, Hadd, Hc.
Qed.

Lemma cache_response_keeps (P : DNSCache -> Prop) :
  (forall c now domain ip ttl, P c -> P (add_record c now domain ip ttl)) ->
  forall (limit : nat) (clock : nat -> Z) (response : bytes) (c : DNSCache),
    P c -> P (_cache_response inet_ntoa limit clock response c).
Proof.
  intros Hadd limit clock response c Hc. unfold _cache_response.
  destruct (_parse_name limit response 12) as [[[name offset]|e]|]; try exact Hc.
  destruct (struct_unpack_H _) as [ancount|e]; [|exact Hc].
  now apply cache_answers_keeps.
Qed.

Lemma add_record_keeps_entries (c : DNSCache) (now : Z) (domain ip : string)
    (ttl : Z) (k v : string) :
  (is_Some (entry_of (domain_to_ip c) k v) ->
   is_Some (entry_of (domain_to_ip (add_record c now domain ip ttl)) k v)) /\
  (is_Some (entry_of (ip_to_domain c) k v) ->
   is_Some (entry_of (ip_to_domain (add_record c now domain ip ttl)) k v)).
Proof.
  unfold add_record. cbn [domain_to_ip ip_to_domain].
  rewrite !entry_of_add_to_dict_any.
  split; intros Hsome; destruct (decide _); eauto.
Qed.

(** Caching a response only adds: whatever the response holds, the
    nameserver table is left as it was, no entry of the forward or the
    reverse table is removed, and no key is left with an empty bucket. *)
Theorem cache_response_only_adds (limit : nat) (clock : nat -> Z)
    (response : bytes) (c : DNSCache) :
  let c' := _cache_response inet_ntoa limit clock response c in
  ns_records c' = ns_records c /\
  (forall k v, is_Some (entry_of (domain_to_ip c) k v) ->
               is_Some (entry_of (domain_to_ip c') k v)) /\
  (forall k v, is_Some (entry_of (ip_to_domain c) k v) ->
               is_Some (entry_of (ip_to_domain c') k v)) /\
  (cache_ok c -> cache_ok c').
Proof.
  cbv zeta. split; [|split; [|split]].
  - apply (cache_response_keeps (fun c' => ns_records c' = ns_records c));
      [|reflexivity].
    intros c0 now domain ip ttl Hc0. exact Hc0.
  - intros k v Hsome.
    apply (cache_response_keeps
             (fun c' => is_Some (entry_of (domain_to_ip c') k v)));
      [|exact Hsome].
    intros c0 now domain ip ttl. apply add_record_keeps_entries.
  - intros k v Hsome.
    apply (cache_response_keeps
             (fun c' => is_Some (entry_of (ip_to_domain c') k v)));
      [|exact Hsome].
    intros c0 now domain ip ttl. apply add_record_keeps_entries.
  - apply (cache_response_keeps cache_ok). intros c0 now domain ip ttl.
    apply add_record_ok.
Qed.

End RequestPath.

Section HandleRequest.

Variable inet_aton : string -> result bytes.
Variable inet_ntoa : bytes -> result string.

Lemma header_prefix (data : bytes) :
  12 <= len data ->
  length (slice data 0 2) = 2%nat /\
  getitem (slice data 2 4) 0 = getitem data 2.
Proof.
  intros Hlen.
  destruct data as [|a [|b [|c [|d rest]]]];
    try (unfold len in Hlen; cbn [length] in Hlen; lia).
  split.
  - pose proof (slice_app byte [] [a; b] (c :: d :: rest)) as Hs.
    cbn [app] in Hs. change (len (@nil byte)) with 0 in Hs.
    change (0 + len [a; b]) with 2 in Hs. now rewrite Hs.
  - pose proof (slice_app byte [a; b] [c; d] rest) as Hs.
    cbn [app] in Hs. change (len [a; b]) with 2 in Hs.
    change (2 + len [c; d]) with 4 in Hs. rewrite Hs.
    change (a :: b :: c :: d :: rest) with ([a; b] ++ c :: d :: rest).
    change 2 with (len [a; b]). rewrite getitem_app. reflexivity.
Qed.

(** A datagram of fewer than 12 bytes, a datagram whose first flags byte has
    the response bit set and a datagram whose question name cannot be
    decoded are dropped: nothing is forwarded or sent back and the cache is
    not touched. *)
Theorem handle_request_drops (limit : nat) (now : Z) (clock : nat -> Z)
    (upstream : bytes -> option bytes) (c : DNSCache) (data : bytes) :
  len data < 12 \/
  (exists flags0, getitem data 2 = Ok flags0 /\ Z.land flags0 0x80 <> 0) \/
  (exists e, _parse_name limit data 12 = Some (Raise e)) ->
  dropped c (_handle_request inet_aton inet_ntoa limit now clock upstream c data).
Proof.
  unfold dropped, _handle_request. intros Hdrop.
  destruct (len data <? 12) eqn:Hlen; [reflexivity|].
  apply Z.ltb_ge in Hlen.
  destruct (header_prefix data Hlen) as [_ Hflags]. rewrite Hflags.
  destruct Hdrop as [Hshort|[(flags0 & -> & Hqr)|(e & Hparse)]].
  - lia.
  - apply Z.eqb_neq in Hqr. change 128 with 0x80. now rewrite Hqr.
  - rewrite Hparse. destruct (getitem data 2) as [flags0|e0]; [|reflexivity].
    now destruct (negb _).
Qed.

(** What is served from the cache. *)
Lemma get_cached_response_Some (c : DNSCache) (now : Z) (tid : bytes)
    (query : string) (qtype msg : bytes) :
  _get_cached_response inet_aton c now tid query qtype = Some msg ->
  exists answers,
    live_answers c now query qtype answers /\
    _build_response inet_aton tid query qtype answers = Ok msg.
Proof.
  unfold _get_cached_response, live_answers.
  destruct (decide (qtype = [x00; x01])) as [->|Hne].
  - destruct (get_ip c now query) as [[|ip ips]|]; try discriminate.
    destruct (_build_response _ _ _ _ _) as [built|e] eqn:Hbuild; [|discriminate].
    intros [= <-]. exists (ip :: ips). repeat split; [now left|discriminate|assumption].
  - destruct (decide (qtype = [x00; x0c])) as [->|Hne']; [|discriminate].
    destruct (get_domain c now query) as [[|d ds]|]; try discriminate.
    destruct (_build_response _ _ _ _ _) as [built|e] eqn:Hbuild; [|discriminate].
    intros [= <-]. exists (d :: ds). repeat split; [now right|discriminate|assumption].
Qed.

Lemma built_message_header (tid : bytes) (query : string) (qtype : bytes)
    (answers : list string) (msg : bytes) :
  length tid = 2%nat ->
  _build_response inet_aton tid query qtype answers = Ok msg ->
  slice msg 0 2 = tid /\ u16_at msg 2 = Ok 0x8180 /\
  u16_at msg 4 = Ok 1 /\ u16_at msg 6 = Ok (len answers).
Proof.
  intros Htid Hbuild. apply build_response_layout in Hbuild.
  destruct Hbuild as (ancount & name & records & Hcount & _ & _ & ->).
  apply unpack_pack_H in Hcount. destruct Hcount as [Hcount Hlen].
  destruct tid as [|t0 [|t1 [|? ?]]]; try discriminate Htid.
  destruct ancount as [|a0 [|a1 [|? ?]]]; try discriminate Hlen.
  unfold u16_at.
  rewrite !(slice_prefix byte
              ([t0; t1] ++ [x81; x80; x00; x01] ++ [a0; a1] ++ [x00; x00; x00; x00]))
    by (unfold len; cbn [length app]; lia).
  repeat split; try reflexivity. exact Hcount.
Qed.

(** A reply that was sent without a query being forwarded was built from
    the cache, which is left as it was: it carries the transaction id of the
    datagram, the flags 0x8180 and one question, and its answer count is the
    number of unexpired values the cache lists for the decoded name, of
    which there is at least one. *)
Theorem handle_request_serves_cache (limit : nat) (now : Z) (clock : nat -> Z)
    (upstream : bytes -> option bytes) (c : DNSCache) (data msg : bytes) :
  let h := _handle_request inet_aton inet_ntoa limit now clock upstream c data in
  h_forwarded h = None ->
  h_sent h = Some msg ->
  h_cache h = c /\
  slice msg 0 2 = slice data 0 2 /\
  u16_at msg 2 = Ok 0x8180 /\
  u16_at msg 4 = Ok 1 /\
  exists query offset answers,
    _parse_name limit data 12 = Some (Ok (query, offset)) /\
    live_answers c now query (slice data offset (offset + 2)) answers /\
    u16_at msg 6 = Ok (len answers).
Proof.
  cbv zeta. unfold _handle_request.
  destruct (len data <? 12) eqn:Hlen; [discriminate|].
  apply Z.ltb_ge in Hlen. destruct (header_prefix data Hlen) as [Htid _].
  destruct (getitem (slice data 2 4) 0) as [flags0|e]; [|discriminate].
  destruct (negb _); [discriminate|].
  destruct (_parse_name limit data 12) as [[[query offset]|e]|]; try discriminate.
  destruct (_get_cached_response _ _ _ _ _ _) as [[|b cached]|] eqn:Hcached.
  - destruct (upstream data) as [[|? ?]|]; discriminate.
  - cbn [h_forwarded h_sent h_cache]. intros _ [= <-].
    apply get_cached_response_Some in Hcached.
    destruct Hcached as (answers & Hlive & Hbuild).
    apply (built_message_header _ _ _ _ _ Htid) in Hbuild.
    destruct Hbuild as (Hid & Hflags & Hqd & Han).
    repeat split; try assumption. exists query, offset, answers. auto.
  - destruct (upstream data) as [[|? ?]|]; discriminate.
Qed.

(** A query is forwarded as it came, and what is sent back after it was
    forwarded is what the upstream answered, byte for byte, after that
    answer was cached; when the upstream gives nothing, nothing is sent
    back and the cache is left as it was. *)
Theorem handle_request_relays (limit : nat) (now : Z) (clock : nat -> Z)
    (upstream : bytes -> option bytes) (c : DNSCache) (data forwarded : bytes) :
  let h := _handle_request inet_aton inet_ntoa limit now clock upstream c data in
  h_forwarded h = Some forwarded ->
  forwarded = data /\
  match h_sent h with
  | Some sent =>
      upstream data = Some sent /\
      h_cache h = _cache_response inet_ntoa limit clock sent c
  | None =>
      (upstream data = None \/ upstream data = Some []) /\ h_cache h = c
  end.
Proof.
  cbv zeta. unfold _handle_request.
  destruct (len data <? 12); [discriminate|].
  destruct (getitem (slice data 2 4) 0) as [flags0|e]; [|discriminate].
  destruct (negb _); [discriminate|].
  destruct (_parse_name limit data 12) as [[[query offset]|e]|]; try discriminate.
  destruct (_get_cached_response _ _ _ _ _ _) as [[|b cached]|];
    try discriminate;
    (destruct (upstream data) as [[|b' response]|];
     cbn [h_forwarded h_sent h_cache]; intros [= <-]; auto).
Qed.

(** Handling a datagram, whatever it holds and whatever the upstream
    answers, leaves the nameserver table as it was, removes no entry of the
    forward or the reverse table and leaves no key with an empty bucket. *)
Theorem handle_request_only_adds (limit : nat) (now : Z) (clock : nat -> Z)
    (upstream : bytes -> option bytes) (c : DNSCache) (data : bytes) :
  let c' := h_cache (_handle_request inet_aton inet_ntoa limit now clock
                       upstream c data) in
  ns_records c' = ns_records c /\
  (forall k v, is_Some (entry_of (domain_to_ip c) k v) ->
               is_Some (entry_of (domain_to_ip c') k v)) /\
  (forall k v, is_Some (entry_of (ip_to_domain c) k v) ->
               is_Some (entry_of (ip_to_domain c') k v)) /\
  (cache_ok c -> cache_ok c').
Proof.
  cbv zeta.
  assert (Hcases :
    h_cache (_handle_request inet_aton inet_ntoa limit now clock upstream c data) = c \/
    exists response,
      h_cache (_handle_request inet_aton inet_ntoa limit now clock upstream c data)
      = _cache_response inet_ntoa limit clock response c).
  { unfold _handle_request.
    destruct (len data <? 12); [now left|].
    destruct (getitem (slice data 2 4) 0) as [flags0|e]; [|now left].
    destruct (negb _); [now left|].
    destruct (_parse_name limit data 12) as [[[query offset]|e]|];
      try (now left).
    destruct (_get_cached_response _ _ _ _ _ _) as [[|b cached]|];
      try (now left);
      (destruct (upstream data) as [[|b' response]|];
       [now left|right; eauto|now left]). }
  destruct Hcases as [-> | [response ->]].
  - split; [reflexivity|]. split; [auto|]. split; auto.
  - apply (cache_response_keeps inet_ntoa
             (fun c' =>
                ns_records c' = ns_records c /\
                (forall k v, is_Some (entry_of (domain_to_ip c) k v) ->
                             is_Some (entry_of (domain_to_ip c') k v)) /\
                (forall k v, is_Some (entry_of (ip_to_domain c) k v) ->
                             is_Some (entry_of (ip_to_domain c') k v)) /\
                (cache_ok c -> cache_ok c')));
      [|split; [reflexivity|]; split; [auto|]; split; auto].
    intros c0 t domain ip ttl (Hns & Hfwd & Hrev & Hok).
    split; [exact Hns|]. split; [|split].
    + intros k v Hsome. now apply add_record_keeps_entries, Hfwd.
    + intros k v Hsome. now apply add_record_keeps_entries, Hrev.
    + intros Hc. now apply add_record_ok, Hok.
Qed.

End HandleRequest.

Lemma handle_request_drops_witness :
  dropped cache_at_1000
    (_handle_request dotted_quad quad_string 1000 1001 (fun _ => 1001)
       (fun _ => None) cache_at_1000
       [x12; x34; x01; x00; x00; x01; x00; x00]).
Proof.
  apply (handle_request_drops dotted_quad quad_string). left. unfold len. cbn [length]. lia.
Defined.

Lemma handle_request_serves_cache_witness :
  h_cache (_handle_request dotted_quad quad_string 1000 1001 (fun _ => 1001)
             (fun _ => None) cache_at_1000 example_query) = cache_at_1000.
Proof.
  assert (Hforwarded :
            h_forwarded (_handle_request dotted_quad quad_string 1000 1001
                           (fun _ => 1001) (fun _ => None) cache_at_1000
                           example_query) = None)
    by (vm_compute; reflexivity).
  destruct (h_sent (_handle_request dotted_quad quad_string 1000 1001
                      (fun _ => 1001) (fun _ => None) cache_at_1000
                      example_query)) as [msg|] eqn:Hsent;
    [|vm_compute in Hsent; discriminate Hsent].
  exact (proj1 (handle_request_serves_cache dotted_quad quad_string 1000 1001
                  (fun _ => 1001) (fun _ => None) cache_at_1000 example_query
                  msg Hforwarded Hsent)).
Defined.

Lemma handle_request_relays_witness :
  h_forwarded (_handle_request dotted_quad quad_string 1000 1001 (fun _ => 1001)
                 example_upstream empty_cache example_query)
  = Some example_query /\
  example_query = example_query.
Proof.
  assert (Hforwarded :
            h_forwarded (_handle_request dotted_quad quad_string 1000 1001
                           (fun _ => 1001) example_upstream empty_cache
                           example_query) = Some example_query)
    by (vm_compute; reflexivity).
  split; [exact Hforwarded|].
  exact (proj1 (handle_request_relays dotted_quad quad_string 1000 1001
                  (fun _ => 1001) example_upstream empty_cache example_query
                  example_query Hforwarded)).
Defined.

Lemma handle_request_only_adds_witness :
  cache_ok
    (h_cache (_handle_request dotted_quad quad_string 1000 1001 (fun _ => 1001)
                example_upstream empty_cache example_query)).
Proof.
  apply (handle_request_only_adds dotted_quad quad_string 1000 1001
           (fun _ => 1001) example_upstream empty_cache example_query).
  apply (run_ops_ok [] empty_cache).
  unfold cache_ok, empty_cache. cbn [domain_to_ip ip_to_domain ns_records].
  repeat split; intros key entries; rewrite lookup_empty; discriminate.
Defined.

(** ** Caching what was built *)

Lemma slice_mid (data pre mid post : bytes) (a b : Z) :
  data = pre ++ mid ++ post -> a = len pre -> b = len pre + len mid ->
  slice data a b = mid.
Proof. intros -> -> ->. apply slice_app. Qed.

(** An encoded name with labels of 1 to 63 characters is decoded where it
    stands in a message. *)
Lemma parse_name_in_place (limit : nat) (s : string) (enc pre post : bytes) :
  _encode_name s = Ok enc ->
  label_lengths 1 63 s ->
  _parse_name (S limit) (pre ++ enc ++ post) (len pre)
  = Some (Ok (s, len pre + len enc)).
Proof.
  unfold _encode_name, label_lengths, labels. intros Henc Hlabels.
  destruct (mapM encode_part (str_split "." s)) as [encs|e] eqn:Hparts;
    [|discriminate].
  cbn [bind] in Henc. apply Ok_inj in Henc. subst enc. apply mapM_Ok in Hparts.
  assert (Hboth : Forall2 (fun part e =>
            encode_part part = Ok e /\ (1 <= String.length part <= 191)%nat)
            (str_split "." s) encs).
  { clear -Hparts Hlabels. induction Hparts; constructor;
      inversion Hlabels; subst; auto. split; [assumption|lia]. }
  cbn [_parse_name]. rewrite <- app_assoc. cbn [app].
  rewrite (parse_encoded_labels _ _ _ Hboth).
  - cbn [app]. rewrite str_join_split. do 3 f_equal.
    rewrite len_app. unfold len. cbn [length]. lia.
  - unfold loop_bound. rewrite !length_app.
    apply encoded_labels_length in Hparts. lia.
Qed.

Lemma unpack_HHIH_A :
  struct_unpack_HHIH [x00; x01; x00; x01; x00; x00; x00; x3c; x00; x04]
  = Ok (1, 1, 60, 4).
Proof. reflexivity. Qed.

Lemma unpack_HHIH_PTR (rdlength : bytes) (n : Z) :
  struct_pack_H n = Ok rdlength ->
  struct_unpack_HHIH ([x00; x0c; x00; x01; x00; x00; x00; x3c] ++ rdlength)
  = Ok (12, 1, 60, n).
Proof.
  intros Hpack. apply unpack_pack_H in Hpack. destruct Hpack as [Hn Hlen].
  destruct rdlength as [|r1 [|r0 [|? ?]]]; try discriminate Hlen.
  cbn in Hn. apply Ok_inj in Hn. cbn. now rewrite Hn.
Qed.

(** The side conditions of cutting a record into its fields. *)
Ltac record_fields shape fixed :=
  first [ rewrite shape, <- ?app_assoc; reflexivity
        | unfold fixed, len; rewrite ?length_app; cbn [length];
          rewrite ?length_app; cbn [length]; lia ].

Section CachingWhatWasBuilt.

Variable inet_aton : string -> result bytes.
Variable inet_ntoa : bytes -> result string.
Variable limit : nat.
Variable clock : nat -> Z.
Variable msg : bytes.
Variable query : string.
Variable qtype : bytes.

(** The question name of [msg] decodes to [query]. *)
Hypothesis question : exists next,
  _parse_name (S limit) msg 12 = Some (Ok (query, next)).

(** One turn of the loop on the record built for one answer. *)
Lemma cache_answers_step (answer value : string) (record pre post : bytes)
    (count index : nat) (c : DNSCache) :
  msg = pre ++ record ++ post ->
  answer_record inet_aton qtype answer = Ok record ->
  read_back inet_aton inet_ntoa qtype answer value ->
  cache_answers inet_ntoa (S (S limit)) clock msg (S count) index (len pre) c
  = cache_answers inet_ntoa (S (S limit)) clock msg count (S index)
      (len (pre ++ record)) (add_record c (clock index) query value 60).
Proof.
  intros Hmsg Hrecord Hback. pose proof question as [next Hquestion].
  unfold answer_record in Hrecord.
  destruct Hback as [(-> & packed & Haton & Hlen & Hntoa)
                    |(-> & -> & Hlabels)].
  - rewrite decide_True in Hrecord by reflexivity.
    rewrite Haton in Hrecord. cbn [bind] in Hrecord.
    apply Ok_inj in Hrecord. subst record.
    set (fixed := [x00; x01; x00; x01; x00; x00; x00; x3c; x00; x04]).
    assert (Hshape : msg = pre ++ [xc0; x0c] ++ fixed ++ packed ++ post)
      by (rewrite Hmsg, <- !app_assoc; reflexivity).
    cbn [cache_answers].
    change (_parse_name (S (S limit)) msg (len pre))
      with (parse_name_loop (loop_bound msg) (_parse_name (S limit) msg) msg
              (len pre) []).
    unfold loop_bound.
    rewrite (pointer_to_question _ _ _ _ _ _ _ Hshape Hquestion).
    rewrite (slice_mid msg (pre ++ [xc0; x0c]) fixed (packed ++ post))
      by record_fields Hshape fixed.
    unfold fixed at 1. rewrite unpack_HHIH_A. change (1 =? 1) with true.
    cbv iota.
    rewrite (slice_mid msg (pre ++ [xc0; x0c] ++ fixed) packed post)
      by record_fields Hshape fixed.
    rewrite Hntoa. f_equal. record_fields Hshape fixed.
  - rewrite decide_False in Hrecord by discriminate.
    rewrite decide_True in Hrecord by reflexivity.
    destruct (_encode_name answer) as [encoded|e] eqn:Hencoded;
      cbn [bind] in Hrecord; [|discriminate].
    destruct (struct_pack_H (len encoded)) as [rdlength|e] eqn:Hpack;
      cbn [bind] in Hrecord; [|discriminate].
    apply Ok_inj in Hrecord. subst record.
    pose proof (unpack_pack_H _ _ Hpack) as [_ Hrdlen].
    set (fixed := [x00; x0c; x00; x01; x00; x00; x00; x3c] ++ rdlength).
    assert (Hfixed : len fixed = 10)
      by (unfold fixed, len; rewrite length_app, Hrdlen; reflexivity).
    assert (Hshape : msg = pre ++ [xc0; x0c] ++ fixed ++ encoded ++ post).
    { rewrite Hmsg. unfold fixed. rewrite <- !app_assoc. reflexivity. }
    cbn [cache_answers].
    change (_parse_name (S (S limit)) msg (len pre))
      with (parse_name_loop (loop_bound msg) (_parse_name (S limit) msg) msg
              (len pre) []).
    unfold loop_bound.
    rewrite (pointer_to_question _ _ _ _ _ _ _ Hshape Hquestion).
    rewrite (slice_mid msg (pre ++ [xc0; x0c]) fixed (encoded ++ post))
      by record_fields Hshape fixed.
    unfold fixed at 1. rewrite (unpack_HHIH_PTR _ _ Hpack).
    change (12 =? 1) with false. change (12 =? 12) with true. cbv iota.
    replace (len pre + 2 + 10 + len encoded - len encoded)
      with (len ((pre ++ [xc0; x0c]) ++ fixed))
      by record_fields Hshape fixed.
    assert (Hplace : msg = ((pre ++ [xc0; x0c]) ++ fixed) ++ encoded ++ post)
      by (rewrite Hshape, <- !app_assoc; reflexivity).
    rewrite Hplace at 1.
    rewrite (parse_name_in_place (S limit) answer encoded _ post Hencoded Hlabels).
    f_equal. record_fields Hshape fixed.
Qed.

(** The loop on the records built for a list of answers. *)
Lemma cache_answers_learns (answers : list string) :
  forall (values : list string) (records : list bytes) (pre : bytes)
         (index : nat) (c : DNSCache),
    Forall2 (fun a r => answer_record inet_aton qtype a = Ok r) answers records ->
    Forall2 (read_back inet_aton inet_ntoa qtype) answers values ->
    msg = pre ++ concat records ->
    cache_answers inet_ntoa (S (S limit)) clock msg (length answers) index
      (len pre) c
    = learn clock query values index c.
Proof.
  induction answers as [|answer answers IH];
    intros values records pre index c Hrecords Hvalues.
  - inversion Hvalues; subst. reflexivity.
  - inversion Hrecords as [|? record ? records' Hrecord Hrest]; subst.
    inversion Hvalues as [|? value ? values' Hvalue Hvrest]; subst.
    intros Hmsg. cbn [length learn concat] in *.
    rewrite (cache_answers_step answer value record pre (concat records')
               (length answers) index c Hmsg Hrecord Hvalue).
    apply (IH values' records' (pre ++ record)); try assumption.
    now rewrite <- app_assoc.
Qed.

End CachingWhatWasBuilt.

(** Caching a message that [_build_response] built, for a query name with
    labels of 1 to 63 characters: each answer is read back from its record
    and cached for the query name with the ttl 60 the record carries, in
    the order of the answers, and nothing else is done to the cache. *)
Theorem cache_response_learns (inet_aton : string -> result bytes)
    (inet_ntoa : bytes -> result string) (limit : nat) (clock : nat -> Z)
    (tid : bytes) (query : string) (qtype : bytes)
    (answers values : list string) (msg : bytes) (c : DNSCache) :
  supported_qtype qtype ->
  length tid = 2%nat ->
  label_lengths 1 63 query ->
  _build_response inet_aton tid query qtype answers = Ok msg ->
  Forall2 (read_back inet_aton inet_ntoa qtype) answers values ->
  _cache_response inet_ntoa (S (S limit)) clock msg c
  = learn clock query values 0 c.
Proof.
  intros Hq Htid Hlabels Hbuild Hvalues.
  pose proof (built_message_header inet_aton _ _ _ _ _ Htid Hbuild)
    as (_ & _ & _ & Hancount).
  apply build_response_layout in Hbuild.
  destruct Hbuild as (ancount & name & records & Hcount & Hname & Hrecs & Hmsg).
  apply unpack_pack_H in Hcount. destruct Hcount as [_ Hlen].
  pose proof (header_length tid ancount Htid Hlen) as Hheader.
  set (header := tid ++ [x81; x80; x00; x01] ++ ancount ++ [x00; x00; x00; x00])
    in *.
  assert (Hqtype : len qtype = 2) by (destruct Hq as [-> | ->]; reflexivity).
  assert (Hquestion : forall lim,
            _parse_name (S lim) msg 12 = Some (Ok (query, 12 + len name))).
  { intros lim. rewrite Hmsg, <- Hheader, <- !app_assoc.
    now apply parse_name_in_place. }
  unfold _cache_response. rewrite Hquestion.
  unfold u16_at in Hancount. change (6 + 2) with 8 in Hancount.
  rewrite Hancount.
  replace (Z.to_nat (len answers)) with (length answers)
    by (unfold len; now rewrite Nat2Z.id).
  replace (12 + len name + 4)
    with (len (header ++ name ++ qtype ++ [x00; x01]))
    by (rewrite !len_app, Hheader, Hqtype; unfold len; cbn [length]; lia).
  apply mapM_Ok in Hrecs.
  apply (cache_answers_learns inet_aton inet_ntoa limit clock msg query qtype
           (ex_intro _ _ (Hquestion limit)) answers values records);
    try assumption.
  rewrite Hmsg, <- !app_assoc. reflexivity.
Qed.

Lemma cache_response_learns_witness :
  match _build_response dotted_quad [x12; x34] "example.com" [x00; x01]
          ["93.184.216.34"%string; "93.184.216.35"%string] with
  | Ok msg =>
      _cache_response quad_string 1000 (fun _ => 1000) msg empty_cache
      = learn (fun _ => 1000) "example.com"
          ["93.184.216.34"%string; "93.184.216.35"%string] 0 empty_cache
  | Raise _ => False
  end.
Proof.
  destruct (_build_response dotted_quad [x12; x34] "example.com" [x00; x01]
              ["93.184.216.34"%string; "93.184.216.35"%string])
    as [msg|e] eqn:Hbuild; [|vm_compute in Hbuild; discriminate Hbuild].
  assert (Hlabels : label_lengths 1 63 "example.com")
    by (unfold label_lengths; repeat constructor).
  assert (Hvalues : Forall2 (read_back dotted_quad quad_string [x00; x01])
                      ["93.184.216.34"%string; "93.184.216.35"%string]
                      ["93.184.216.34"%string; "93.184.216.35"%string]).
  { repeat (constructor;
            [left; split; [reflexivity|]; eexists;
             split; [vm_compute; reflexivity|];
             split; [reflexivity|vm_compute; reflexivity]|]).
    constructor. }
  exact (cache_response_learns dotted_quad quad_string 998 (fun _ => 1000)
           [x12; x34] "example.com" [x00; x01] _ _ msg empty_cache
           (or_introl eq_refl) eq_refl Hlabels Hbuild Hvalues).
Defined.

Lemma add_record_keeps_listed (c : DNSCache) (t ttl now : Z)
    (domain ip k v : string) :
  now < t + ttl ->
  (listed v (get_ip c now k) ->
   listed v (get_ip (add_record c t domain ip ttl) now k)) /\
  (listed v (get_domain c now k) ->
   listed v (get_domain (add_record c t domain ip ttl) now k)).
Proof.
  intros Hlive. unfold get_ip, get_domain, add_record.
  cbn [domain_to_ip ip_to_domain]. rewrite !listed_iff.
  split; intros (expire & ttl' & Hentry & Hnow);
    rewrite entry_of_add_to_dict_any; destruct (decide _); eauto.
Qed.

Lemma learn_keeps_listed (clock : nat -> Z) (query : string) (now : Z)
    (values : list string) :
  (forall i, now < clock i + 60) ->
  forall (index : nat) (c : DNSCache) (k v : string),
    (listed v (get_ip c now k) ->
     listed v (get_ip (learn clock query values index c) now k)) /\
    (listed v (get_domain c now k) ->
     listed v (get_domain (learn clock query values index c) now k)).
Proof.
  intros Hclock. induction values as [|value values IH]; intros index c k v;
    [tauto|].
  cbn [learn].
  pose proof (add_record_keeps_listed c (clock index) 60 now query value k v
                (Hclock index)) as [Hfwd Hrev].
  split; intros Hl; apply IH; auto.
Qed.

(** Every value so cached is listed for the query name, and the query name
    for every value, by every lookup made less than 60 seconds after the
    clock readings of the caching. *)
Theorem learned_values_listed (clock : nat -> Z) (query : string) (now : Z)
    (values : list string) (c : DNSCache) (value : string) :
  (forall i, now < clock i + 60) ->
  value ∈ values ->
  listed value (get_ip (learn clock query values 0 c) now query) /\
  listed query (get_domain (learn clock query values 0 c) now value).
Proof.
  intros Hclock. generalize 0%nat as index. revert c.
  induction values as [|first values IH]; intros c index Hin.
  - now apply not_elem_of_nil in Hin.
  - cbn [learn]. apply elem_of_cons in Hin. destruct Hin as [->|Hin].
    + split; apply (learn_keeps_listed clock query now values Hclock);
        unfold get_ip, get_domain, add_record; cbn [domain_to_ip ip_to_domain];
        apply add_then_lookup, Hclock.
    + now apply IH.
Qed.

Lemma learned_values_listed_witness :
  listed "93.184.216.35"
    (get_ip (learn (fun _ => 1000) "example.com"
               ["93.184.216.34"%string; "93.184.216.35"%string] 0 empty_cache)
       1059 "example.com").
Proof.
  apply (learned_values_listed (fun _ => 1000) "example.com" 1059
           ["93.184.216.34"%string; "93.184.216.35"%string] empty_cache
           "93.184.216.35").
  - intros _. lia.
  - apply list_elem_of_In. right. left. reflexivity.
Defined.

(** ** What a learned answer is served for *)

(** Label lengths of a given name, by computation. *)
Ltac label_lengths_of_literal :=
  unfold label_lengths;
  match goal with
  | |- Forall _ ?l => let l' := eval vm_compute in l in change l with l'
  end;
  repeat (constructor; [cbn [String.length]; lia|]); constructor.

Lemma learn_reverse_key (clock : nat -> Z) (query : string) (values : list string) :
  query ∉ values ->
  forall (index : nat) (c : DNSCache),
    ip_to_domain (learn clock query values index c) !! query
    = ip_to_domain c !! query.
Proof.
  induction values as [|value values IH]; intros Hnotin index c; [reflexivity|].
  apply not_elem_of_cons in Hnotin. destruct Hnotin as [Hne Hnotin].
  cbn [learn]. rewrite IH by assumption.
  unfold add_record. cbn [ip_to_domain].
  apply add_to_dict_lookup_ne. congruence.
Qed.

(** The names cached from the answer to a PTR query are not served to the
    same query: they are stored for the query name in the forward table,
    where A queries look, and the reverse table, where PTR queries look,
    gets the query name under each answer.  After caching a PTR answer that
    [_build_response] built, the lookup for the query name in the reverse
    table, and with it what [_get_cached_response] gives the same PTR
    query, is what it was before. *)
Theorem ptr_answers_not_served (inet_aton : string -> result bytes)
    (inet_ntoa : bytes -> result string) (limit : nat) (clock : nat -> Z)
    (tid tid' : bytes) (query : string) (answers : list string) (msg : bytes)
    (c : DNSCache) (now : Z) :
  length tid = 2%nat ->
  label_lengths 1 63 query ->
  Forall (label_lengths 1 63) answers ->
  query ∉ answers ->
  _build_response inet_aton tid query [x00; x0c] answers = Ok msg ->
  let c' := _cache_response inet_ntoa (S (S limit)) clock msg c in
  get_domain c' now query = get_domain c now query /\
  _get_cached_response inet_aton c' now tid' query [x00; x0c]
  = _get_cached_response inet_aton c now tid' query [x00; x0c].
Proof.
  intros Htid Hlabels Hanswers Hnotin Hbuild. cbv zeta.
  assert (Hvalues : Forall2 (read_back inet_aton inet_ntoa [x00; x0c])
                      answers answers).
  { clear -Hanswers. induction Hanswers; constructor; [|assumption].
    right. auto. }
  rewrite (cache_response_learns inet_aton inet_ntoa limit clock tid query
             [x00; x0c] answers answers msg c (or_intror eq_refl) Htid
             Hlabels Hbuild Hvalues).
  assert (Hsame : get_domain (learn clock query answers 0 c) now query
                  = get_domain c now query).
  { unfold get_domain, _get_valid_entries.
    now rewrite learn_reverse_key by assumption. }
  split; [exact Hsame|].
  unfold _get_cached_response. rewrite decide_False by discriminate.
  rewrite decide_True by reflexivity. now rewrite Hsame.
Qed.

Lemma ptr_answers_not_served_witness :
  match _build_response dotted_quad [x12; x34] "34.216.184.93.in-addr.arpa"
          [x00; x0c] ["example.com"%string] with
  | Ok msg =>
      get_domain (_cache_response quad_string 1000 (fun _ => 1000) msg empty_cache)
        1001 "34.216.184.93.in-addr.arpa"
      = get_domain empty_cache 1001 "34.216.184.93.in-addr.arpa"
  | Raise _ => False
  end.
Proof.
  destruct (_build_response dotted_quad [x12; x34] "34.216.184.93.in-addr.arpa"
              [x00; x0c] ["example.com"%string])
    as [msg|e] eqn:Hbuild; [|vm_compute in Hbuild; discriminate Hbuild].
  assert (Hquery : label_lengths 1 63 "34.216.184.93.in-addr.arpa")
    by label_lengths_of_literal.
  assert (Hanswers : Forall (label_lengths 1 63) ["example.com"%string])
    by (constructor; [label_lengths_of_literal|constructor]).
  assert (Hnotin : "34.216.184.93.in-addr.arpa"%string ∉ ["example.com"%string]).
  { intros Hin. apply list_elem_of_In in Hin. destruct Hin as [Hin|[]].
    discriminate Hin. }
  exact (proj1 (ptr_answers_not_served dotted_quad quad_string 998
                  (fun _ => 1000) [x12; x34] [x12; x34]
                  "34.216.184.93.in-addr.arpa" ["example.com"%string] msg
                  empty_cache 1001 eq_refl Hquery Hanswers Hnotin Hbuild)).
Defined.

(** ** A miss, then a hit *)

Lemma learn_forward_entries (clock : nat -> Z) (query : string)
    (values : list string) :
  forall (index : nat) (c : DNSCache) (k v : string) (entry : Z * Z),
    entry_of (domain_to_ip (learn clock query values index c)) k v = Some entry ->
    k = query /\ v ∈ values \/ entry_of (domain_to_ip c) k v = Some entry.
Proof.
  induction values as [|value values IH]; intros index c k v entry;
    [now right|].
  cbn [learn]. intros Hentry. apply IH in Hentry.
  destruct Hentry as [[-> Hin]|Hentry].
  - left. split; [reflexivity|]. now apply list_elem_of_further.
  - unfold add_record in Hentry. cbn [domain_to_ip] in Hentry.
    rewrite entry_of_add_to_dict_any in Hentry.
    destruct (decide (k = query /\ v = value)) as [[-> ->]|_]; [|now right].
    left. split; [reflexivity|]. apply list_elem_of_here.
Qed.

Lemma get_valid_entries_NoDup (d : table) (key : string) (now : Z)
    (l : list string) :
  _get_valid_entries d key now = Some l -> NoDup l.
Proof.
  unfold _get_valid_entries. destruct (d !! key) as [entries|]; [|discriminate].
  destruct (fst <$> filter (alive now) (map_to_list entries)) as [|v vs] eqn:Hl;
    [discriminate|].
  intros [= <-]. rewrite <- Hl. apply NoDup_fmap_fst.
  - intros value e1 e2 H1 H2.
    apply list_elem_of_filter in H1, H2. destruct H1 as [_ H1], H2 as [_ H2].
    apply elem_of_map_to_list in H1, H2. congruence.
  - apply NoDup_filter, NoDup_map_to_list.
Qed.

Section MissThenHit.

Variable inet_aton : string -> result bytes.
Variable inet_ntoa : bytes -> result string.

(** An address query is answered when the name can be encoded, there are at
    most 65535 answers and [inet_aton] takes every one of them. *)
Lemma build_address_response (tid : bytes) (query : string) (name : bytes)
    (answers : list string) :
  _encode_name query = Ok name ->
  len answers <= 65535 ->
  Forall (fun a => exists packed, inet_aton a = Ok packed) answers ->
  exists msg, _build_response inet_aton tid query [x00; x01] answers = Ok msg.
Proof.
  intros Hname Hcount Hanswers. unfold _build_response, struct_pack_H.
  assert ((0 <=? len answers) && (len answers <=? 65535) = true) as ->
    by (apply andb_true_intro; split; [apply Z.leb_le; apply len_nonneg
                                      |now apply Z.leb_le]).
  cbn [bind]. rewrite Hname. cbn [bind].
  assert (Hloop : forall section, exists out,
            answers_loop inet_aton [x00; x01] answers section = Ok out).
  { clear Hcount.
    induction Hanswers as [|answer answers [packed Hpacked] _ IH];
      intros section; cbn [answers_loop]; [eauto|].
    unfold answer_record. rewrite decide_True by reflexivity.
    rewrite Hpacked. cbn [bind]. apply IH. }
  unfold _build_answers_section. destruct (Hloop []) as [section ->].
  cbn [bind]. eauto.
Qed.

Variable limit : nat.
Variable data : bytes.
Variable query : string.
Variable offset : Z.

(** [data] is a query for the addresses of [query]. *)
Hypothesis long_enough : 12 <= len data.
Hypothesis is_query : exists flags0,
  getitem data 2 = Ok flags0 /\ Z.land flags0 0x80 = 0.
Hypothesis question : _parse_name (S (S limit)) data 12 = Some (Ok (query, offset)).
Hypothesis address_query : slice data offset (offset + 2) = [x00; x01].

(** How [_handle_request] goes about such a datagram. *)
Lemma handle_address_query (now : Z) (clock : nat -> Z)
    (upstream : bytes -> option bytes) (c : DNSCache) :
  _handle_request inet_aton inet_ntoa (S (S limit)) now clock upstream c data
  = match _get_cached_response inet_aton c now (slice data 0 2) query [x00; x01] with
    | Some (b :: cached) => mkHandled c None (Some (b :: cached))
    | _ =>
        match upstream data with
        | Some (b :: response) =>
            mkHandled
              (_cache_response inet_ntoa (S (S limit)) clock (b :: response) c)
              (Some data) (Some (b :: response))
        | _ => mkHandled c (Some data) None
        end
    end.
Proof.
  unfold _handle_request.
  destruct (len data <? 12) eqn:Hlen; [apply Z.ltb_lt in Hlen; lia|].
  destruct (header_prefix data long_enough) as [_ Hflags]. rewrite Hflags.
  destruct is_query as (flags0 & -> & Hqr).
  change 128 with 0x80. rewrite Hqr. cbn [Z.eqb negb].
  rewrite question, address_query. reflexivity.
Qed.

(** A query for the addresses of a name the cache lists nothing for is
    forwarded, and the answer of the upstream, here one that
    [_build_response] built, is relayed and cached; the same query, coming
    again less than 60 seconds after the caching, is answered from the
    cache with the addresses learned and is not forwarded. *)
Theorem miss_then_hit (now1 now2 : Z) (clock clock2 : nat -> Z)
    (upstream upstream2 : bytes -> option bytes) (c : DNSCache)
    (tid' response : bytes) (answers values : list string) :
  get_ip c now1 query = None ->
  upstream data = Some response ->
  length tid' = 2%nat ->
  label_lengths 1 63 query ->
  answers <> [] ->
  _build_response inet_aton tid' query [x00; x01] answers = Ok response ->
  Forall2 (read_back inet_aton inet_ntoa [x00; x01]) answers values ->
  Forall (fun v => exists packed, inet_aton v = Ok packed) values ->
  now1 <= now2 ->
  (forall i, now2 < clock i + 60) ->
  let h1 := _handle_request inet_aton inet_ntoa (S (S limit)) now1 clock
              upstream c data in
  let h2 := _handle_request inet_aton inet_ntoa (S (S limit)) now2 clock2
              upstream2 (h_cache h1) data in
  h_forwarded h1 = Some data /\
  h_sent h1 = Some response /\
  h_cache h1 = learn clock query values 0 c /\
  h_forwarded h2 = None /\
  h_cache h2 = h_cache h1 /\
  exists msg live,
    h_sent h2 = Some msg /\
    get_ip (h_cache h1) now2 query = Some live /\
    (forall v, v ∈ live <-> v ∈ values) /\
    slice msg 0 2 = slice data 0 2 /\
    u16_at msg 6 = Ok (len live).
Proof.
  intros Hmiss Hup Htid' Hlabels Hne Hbuild Hvalues Haccepted Htime Hclock.
  cbv zeta.
  (* the first request *)
  assert (Hlearn : _cache_response inet_ntoa (S (S limit)) clock response c
                   = learn clock query values 0 c)
    by (apply (cache_response_learns inet_aton inet_ntoa limit clock tid' query
                 [x00; x01] answers values response c);
        [now left|assumption..]).
  pose proof (build_response_layout inet_aton _ _ _ _ _ Hbuild)
    as (ancount & name & records & Hcount & Hname & _ & Hlayout).
  assert (Hresponse : exists b rest, response = b :: rest).
  { destruct tid' as [|t0 tid']; [discriminate Htid'|].
    rewrite Hlayout. cbn [app]. eauto. }
  destruct Hresponse as (b & rest & Hresponse).
  assert (Hfirst : _handle_request inet_aton inet_ntoa (S (S limit)) now1 clock
                     upstream c data
                   = mkHandled (learn clock query values 0 c) (Some data)
                       (Some response)).
  { rewrite handle_address_query. unfold _get_cached_response.
    rewrite decide_True by reflexivity. rewrite Hmiss, Hup, Hresponse.
    rewrite <- Hresponse, Hlearn. reflexivity. }
  rewrite Hfirst. cbn [h_forwarded h_sent h_cache].
  split; [reflexivity|]. split; [reflexivity|]. split; [reflexivity|].
  (* what the cache lists for the name afterwards *)
  set (c1 := learn clock query values 0 c).
  assert (Hvalue : exists value, value ∈ values).
  { destruct Hvalues as [|a v ? ? _ _]; [contradiction|].
    exists v. apply list_elem_of_here. }
  destruct Hvalue as [value0 Hvalue0].
  destruct (get_ip c1 now2 query) as [live|] eqn:Hlive.
  2:{ destruct (learned_values_listed clock query now2 values c value0
                  Hclock Hvalue0) as [(l & Hl & _) _].
      fold c1 in Hl. congruence. }
  assert (Hsame : forall v, v ∈ live <-> v ∈ values).
  { intros v. unfold get_ip in Hlive.
    rewrite (get_valid_entries_elem _ _ _ _ v Hlive). split.
    - intros (expire & ttl & Hentry & Hnow).
      apply learn_forward_entries in Hentry.
      destruct Hentry as [[_ Hin]|Hentry]; [exact Hin|].
      exfalso. apply (get_valid_entries_None _ _ now1) in Hentry; [|lia].
      now apply Hentry.
    - intros Hin.
      destruct (learned_values_listed clock query now2 values c v Hclock Hin)
        as [Hl _].
      fold c1 in Hl. unfold get_ip in Hl. now apply listed_iff in Hl. }
  assert (Hshort : len live <= 65535).
  { unfold struct_pack_H in Hcount.
    destruct ((0 <=? len answers) && (len answers <=? 65535)) eqn:Hle;
      [|discriminate].
    apply andb_prop in Hle. destruct Hle as [_ Hle]. apply Z.leb_le in Hle.
    assert (length live <= length values)%nat.
    { apply submseteq_length, NoDup_submseteq.
      - now apply get_valid_entries_NoDup in Hlive.
      - intros v. apply Hsame. }
    apply Forall2_length in Hvalues. unfold len in *. lia. }
  assert (Hserved : exists msg,
            _build_response inet_aton (slice data 0 2) query [x00; x01] live
            = Ok msg).
  { apply (build_address_response _ _ name); [assumption..|].
    apply Forall_forall. intros v Hin. apply Hsame in Hin.
    revert v Hin. now apply Forall_forall. }
  destruct Hserved as [msg Hmsg].
  assert (Hlist : exists v vs, live = v :: vs).
  { destruct live as [|v vs]; [|eauto].
    apply Hsame in Hvalue0. now apply not_elem_of_nil in Hvalue0. }
  destruct Hlist as (v & vs & Hlist).
  destruct (header_prefix data long_enough) as [Htid _].
  pose proof (built_message_header inet_aton _ _ _ _ _ Htid Hmsg)
    as (Hid & _ & _ & Hancount).
  pose proof (build_response_layout inet_aton _ _ _ _ _ Hmsg)
    as (ancount2 & name2 & records2 & _ & _ & _ & Hlayout2).
  assert (Hnonempty : exists b2 rest2, msg = b2 :: rest2).
  { destruct (slice data 0 2) as [|t0 ?]; [discriminate Htid|].
    rewrite Hlayout2. cbn [app]. eauto. }
  destruct Hnonempty as (b2 & rest2 & Hnonempty).
  assert (Hsecond : _handle_request inet_aton inet_ntoa (S (S limit)) now2
                      clock2 upstream2 c1 data
                    = mkHandled c1 None (Some msg)).
  { rewrite handle_address_query. unfold _get_cached_response.
    rewrite decide_True by reflexivity. rewrite Hlive, Hlist.
    rewrite <- Hlist, Hmsg, Hnonempty. reflexivity. }
  rewrite Hsecond. cbn [h_forwarded h_sent h_cache].
  split; [reflexivity|]. split; [reflexivity|].
  exists msg, live. auto.
Qed.

End MissThenHit.

Lemma miss_then_hit_witness :
  h_forwarded
    (_handle_request dotted_quad quad_string 1000 1030 (fun _ => 1030)
       (fun _ => None)
       (h_cache (_handle_request dotted_quad quad_string 1000 1000
                   (fun _ => 1000) example_upstream empty_cache example_query))
       example_query)
  = None.
Proof.
  destruct (example_upstream example_query) as [response|] eqn:Hup;
    [|vm_compute in Hup; discriminate Hup].
  assert (Hbuild : _build_response dotted_quad [x12; x34] "example.com"
                     [x00; x01]
                     ["93.184.216.34"%string; "93.184.216.35"%string]
                   = Ok response).
  { vm_compute in Hup. injection Hup as <-. vm_compute. reflexivity. }
  assert (Hlong : 12 <= len example_query) by (vm_compute; discriminate).
  assert (Hquery : exists flags0,
            getitem example_query 2 = Ok flags0 /\ Z.land flags0 0x80 = 0)
    by (exists 1; split; reflexivity).
  assert (Hquestion : _parse_name (S (S 998)) example_query 12
                      = Some (Ok ("example.com"%string, 25)))
    by (vm_compute; reflexivity).
  assert (Haddress : slice example_query 25 (25 + 2) = [x00; x01])
    by (vm_compute; reflexivity).
  assert (Hlabels : label_lengths 1 63 "example.com")
    by label_lengths_of_literal.
  assert (Hvalues : Forall2 (read_back dotted_quad quad_string [x00; x01])
                      ["93.184.216.34"%string; "93.184.216.35"%string]
                      ["93.184.216.34"%string; "93.184.216.35"%string]).
  { repeat (constructor;
            [left; split; [reflexivity|]; eexists;
             split; [vm_compute; reflexivity|];
             split; [reflexivity|vm_compute; reflexivity]|]).
    constructor. }
  assert (Haccepted : Forall (fun v => exists packed, dotted_quad v = Ok packed)
                        ["93.184.216.34"%string; "93.184.216.35"%string]).
  { repeat (constructor; [eexists; vm_compute; reflexivity|]). constructor. }
  assert (Hclock : forall i : nat, 1030 < (fun _ : nat => 1000) i + 60)
    by (intros _; lia).
  exact (proj1 (proj2 (proj2 (proj2
           (miss_then_hit dotted_quad quad_string 998 example_query
              "example.com" 25 Hlong Hquery Hquestion Haddress
              1000 1030 (fun _ => 1000) (fun _ => 1030) example_upstream
              (fun _ => None) empty_cache [x12; x34] response
              ["93.184.216.34"%string; "93.184.216.35"%string]
              ["93.184.216.34"%string; "93.184.216.35"%string]
              eq_refl Hup eq_refl Hlabels ltac:(discriminate) Hbuild Hvalues
              Haccepted ltac:(lia) Hclock))))).
Defined.

Lemma cache_response_only_adds_witness :
  match example_upstream example_query with
  | Some msg =>
      cache_ok (_cache_response quad_string 1000 (fun _ => 1000) msg cache_at_1000)
  | None => False
  end.
Proof.
  destruct (example_upstream example_query) as [msg|] eqn:Hup;
    [|vm_compute in Hup; discriminate Hup].
  apply (cache_response_only_adds quad_string 1000 (fun _ => 1000) msg
           cache_at_1000).
  apply (run_ops_ok [Insert 1000 "example.com" "93.184.216.34" 60] empty_cache).
  unfold cache_ok, empty_cache. cbn [domain_to_ip ip_to_domain ns_records].
  repeat split; intros key entries; rewrite lookup_empty; discriminate.
Defined.
